(** * cache-async-fn: the cache-entry lifecycle of [cacheAsync]

    A shallow embedding of [src/index.ts].  One wrapped function is a
    closure over its options, its producer [fn] and one storage object;
    here the closure's mutable surroundings are an explicit [State] that
    every operation threads.

    Modelling conventions.
    - An [ICacheData] object is never mutated after it is built: every
      write constructs a new object literal.  An object is therefore its
      allocation address together with its (immutable) fields, and the
      identity test [a !== b] compares addresses.
    - The storage collaborator is a map that hands back the very object it
      was given, as [ICacheStorage] is used by the identity test of
      [resolve]: a finite map, in which storing [undefined] and having no
      entry read the same.  The MobX [createCache] of the README, whose
      [observable.ref] keeps the stored object as it is, is such a
      storage; one that answers [get] with a proxy of the stored object
      is not, and is not modelled.
    - [Date.now()] is an argument of every operation that reads the clock.
      Numbers are restricted to integers (millisecond timestamps and
      durations), on which the arithmetic of the source is exact.
    - The producer [fn] is asynchronous: each invocation is logged and
      answers with a new pending promise; it does not call back into the
      cache while it is being invoked.  The environment settles a promise
      later, by a [settle] event, and the callbacks registered with
      [promise.then] run in that event.  The code of the cache never
      inspects the state of a promise, so running a callback in the turn
      of the settlement rather than in a later microtask is no
      restriction: whatever runs in between can be placed before the
      event. *)

From Stdlib Require Import ZArith Lia.
From stdpp Require Import base option list gmap strings pretty.

Set Default Goal Selector "!".

(** ** Key resolution *)

Section KeyResolver.

(** [T] is the argument tuple of the wrapped function, [Num] the JS
    numbers a resolver may return, [numberToString] their template-literal
    rendering. *)
Context {T Num : Type}.
Variable numberToString : Num -> string.

(** [type ICachePrimitiveKey = string | number | undefined] *)
Inductive ICachePrimitiveKey :=
| KString (s : string)
| KNumber (n : Num)
| KUndefined.

(** What a resolver returns at run time: a primitive or an array.  The
    declared type only allows arrays of length two; the list also covers
    arrays of any other length. *)
Inductive ResolverResult :=
| RPrimitive (k : ICachePrimitiveKey)
| RArray (ks : list ICachePrimitiveKey).

(** [`${key ?? ''}`] *)
Definition stringify (k : ICachePrimitiveKey) : string :=
  match k with
  | KString s => s
  | KNumber n => numberToString n
  | KUndefined => ""%string
  end.

Definition resolveKey (resolver : T -> ResolverResult) (args : T) : list string :=
  let res := resolver args in
  let keys := match res with
              | RArray ks => ks
              | RPrimitive k => [k; k]
              end in
  map stringify keys.

(** The array pattern [[cacheGroup, cacheKey]] of every consumer: element
    0 and element 1, each [undefined] (here [None]) when missing. *)
Definition destructure (keys : list string) : option string * option string :=
  (keys !! 0%nat, keys !! 1%nat).

(** [defaultOptions.resolver = () => ''] *)
Definition defaultResolver : T -> ResolverResult :=
  fun _ => RPrimitive (KString "").

End KeyResolver.

Arguments ICachePrimitiveKey : clear implicits.
Arguments ResolverResult : clear implicits.

(** ** Options *)

(** [interface ICacheOptions<T>] *)
Record ICacheOptions (T Num : Type) := {
  resolver : T -> ResolverResult Num;
  mustRevalidate : bool;
  ttl : Z;
}.
Arguments resolver {T Num} _ _.
Arguments mustRevalidate {T Num} _.
Arguments ttl {T Num} _.

Definition defaultOptions {T Num : Type} : ICacheOptions T Num :=
  {| mustRevalidate := false;
     resolver := defaultResolver;
     ttl := (-1)%Z |}.

(** [options?: Partial<ICacheOptions<T>>]: every property may be left out. *)
Record PartialOptions (T Num : Type) := {
  p_resolver : option (T -> ResolverResult Num);
  p_mustRevalidate : option bool;
  p_ttl : option Z;
}.
Arguments p_resolver {T Num} _.
Arguments p_mustRevalidate {T Num} _.
Arguments p_ttl {T Num} _.

(** [{...defaultOptions, ...options}] *)
Definition merge_options {T Num : Type} (o : option (PartialOptions T Num))
    : ICacheOptions T Num :=
  let d : ICacheOptions T Num := defaultOptions in
  match o with
  | None => d
  | Some o =>
      {| resolver := default (resolver d) (p_resolver o);
         mustRevalidate := default (mustRevalidate d) (p_mustRevalidate o);
         ttl := default (ttl d) (p_ttl o) |}
  end.

(** [type ICacheKeyTuple = [cacheGroup: string, cacheKey: string]] *)
Definition ICacheKeyTuple : Type := string * string.

(** ** Entries, promises and the state of one wrapped function *)

Section Lifecycle.

(** [T]: arguments of the producer; [U]: its (defined) results, of which
    [isNull] recognises [null]; [Extra]: whatever own properties an entry
    carries besides the five of [ICacheData]; [Num]: the numbers of a
    resolver. *)
Context {T U Extra Num : Type}.
Variable isNull : U -> bool.

(** The options of the closure, already merged with the defaults:
    [const { mustRevalidate, resolver, ttl } = {...defaultOptions, ...options}];
    [mustRevalidate options] and [ttl options] below are the destructured
    constants. *)
Variable options : ICacheOptions T Num.

(** [interface ICacheData<U>].  [addr] is the identity of the object, not
    a property: a spread copies every field except it.  [value = None]
    is an absent or [undefined] value. *)
Record ICacheData := {
  addr : nat;
  key : string;
  promise : nat;
  settled : bool;
  value : option U;
  expireAt : Z;
  extra : option Extra;
}.

(** How a promise ends, and the state of a promise object. *)
Inductive Outcome :=
| Fulfilled (v : U)
| Rejected.

Inductive PromiseState :=
| Pending
| Settled (o : Outcome).

(** The closure [resolve] that [reload] passes to [promise.then]: it
    captures [cacheGroup] and [cachedData]. *)
Record Handler := {
  h_group : string;
  h_data : ICacheData;
}.

Record State := {
  cache : gmap string ICacheData;    (* the storage collaborator *)
  next_addr : nat;                   (* next object address *)
  promises : list PromiseState;      (* promise objects, by identity *)
  invocations : list T;              (* calls [fn(...args)] so far *)
  handlers : list (nat * Handler);   (* [promise.then] registrations *)
}.

Definition init : State :=
  {| cache := ∅; next_addr := 0; promises := []; invocations := []; handlers := [] |}.

(** *** The storage collaborator ([ICacheStorage]) *)

Definition cache_get (st : State) (cacheGroup : string) : option ICacheData :=
  cache st !! cacheGroup.

Definition cache_set (st : State) (cacheGroup : string) (data : option ICacheData) : State :=
  {| cache := match data with
              | Some d => <[cacheGroup := d]> (cache st)
              | None => delete cacheGroup (cache st)
              end;
     next_addr := next_addr st;
     promises := promises st;
     invocations := invocations st;
     handlers := handlers st |}.

Definition cache_clear (st : State) : State :=
  {| cache := ∅;
     next_addr := next_addr st;
     promises := promises st;
     invocations := invocations st;
     handlers := handlers st |}.

(** Evaluating an object literal takes the next address. *)
Definition alloc (st : State) : nat * State :=
  (next_addr st,
   {| cache := cache st;
      next_addr := S (next_addr st);
      promises := promises st;
      invocations := invocations st;
      handlers := handlers st |}).

(** A new promise object in the given state; its identity is returned. *)
Definition new_promise (ps : PromiseState) (st : State) : nat * State :=
  (length (promises st),
   {| cache := cache st;
      next_addr := next_addr st;
      promises := promises st ++ [ps];
      invocations := invocations st;
      handlers := handlers st |}).

(** [fn(...args)]: the invocation is logged and answers with a new
    pending promise. *)
Definition invoke_fn (args : T) (st : State) : nat * State :=
  let '(p, st1) := new_promise Pending st in
  (p,
   {| cache := cache st1;
      next_addr := next_addr st1;
      promises := promises st1;
      invocations := invocations st1 ++ [args];
      handlers := handlers st1 |}).

(** [promise.then(value => resolve(false, value), () => resolve(true))] *)
Definition promise_then (p : nat) (h : Handler) (st : State) : State :=
  {| cache := cache st;
     next_addr := next_addr st;
     promises := promises st;
     invocations := invocations st;
     handlers := handlers st ++ [(p, h)] |}.

(** [a !== b] between what [cache.get] answers and an object. *)
Definition not_identical (a : option ICacheData) (b : ICacheData) : bool :=
  match a with
  | Some a' => negb (addr a' =? addr b)%nat
  | None => true
  end.

(** *** Reads *)

Definition isSettled (ks : ICacheKeyTuple) (st : State) : bool :=
  let '(cacheGroup, cacheKey) := ks in
  match cache_get st cacheGroup with
  | Some cachedData => bool_decide (key cachedData = cacheKey) && settled cachedData
  | None => false
  end.

Definition isFresh (now : Z) (ks : ICacheKeyTuple) (st : State) : bool :=
  let '(cacheGroup, cacheKey) := ks in
  match cache_get st cacheGroup with
  | Some cachedData =>
      bool_decide (key cachedData = cacheKey)
      && settled cachedData
      && ((expireAt cachedData <? 0)%Z || (expireAt cachedData >? now)%Z)
  | None => false
  end.

Definition get (now : Z) (ks : ICacheKeyTuple) (st : State) : option U :=
  let '(cacheGroup, cacheKey) := ks in
  match cache_get st cacheGroup with
  | Some cachedData =>
      if negb (mustRevalidate options) || isFresh now (cacheGroup, cacheKey) st
      then value cachedData
      else None
  | None => None
  end.

(** *** Writes *)

(** [value == null ? Promise.reject() : Promise.resolve(value)] *)
Definition settled_promise_of (v : option U) : PromiseState :=
  match v with
  | Some u => if isNull u then Settled Rejected else Settled (Fulfilled u)
  | None => Settled Rejected
  end.

(** [set([cacheGroup, cacheKey], value?, valueTtl = ttl)].  In the literal
    [key: cacheKey] comes before the spread of the stored entry, so a
    stored entry's [key] overrides it. *)
Definition set (now : Z) (ks : ICacheKeyTuple) (v : option U) (valueTtl : option Z)
    (st : State) : State :=
  let '(cacheGroup, cacheKey) := ks in
  let valueTtl := default (ttl options) valueTtl in
  let expireAt_ := if (valueTtl <? 0)%Z then valueTtl else (now + valueTtl)%Z in
  let old := cache_get st cacheGroup in
  let '(p, st1) := new_promise (settled_promise_of v) st in
  let '(a, st2) := alloc st1 in
  cache_set st2 cacheGroup (Some
    {| addr := a;
       key := from_option key cacheKey old;
       extra := old ≫= extra;
       promise := p;
       value := v;
       expireAt := expireAt_;
       settled := true |}).

Definition delete_ (ks : ICacheKeyTuple) (st : State) : State :=
  cache_set st ks.1 None.

Definition clear (st : State) : State :=
  cache_clear st.

(** The closure [resolve(error, value?)] of [reload], for the captured
    [cacheGroup] and [cachedData]. *)
Definition resolve (cacheGroup : string) (cachedData : ICacheData)
    (error : bool) (v : option U) (now : Z) (st : State) : State :=
  if not_identical (cache_get st cacheGroup) cachedData then st
  else
    let expireAt_ :=
      if error then 0%Z
      else if (ttl options <? 0)%Z then ttl options else (now + ttl options)%Z in
    let '(a, st1) := alloc st in
    cache_set st1 cacheGroup (Some
      {| addr := a;
         key := key cachedData;
         promise := promise cachedData;
         extra := extra cachedData;
         value := v;
         expireAt := expireAt_;
         settled := true |}).

Definition reload (ks : ICacheKeyTuple) (args : T) (st : State) : State * nat :=
  let '(cacheGroup, cacheKey) := ks in
  let oldCache := cache_get st cacheGroup in
  let '(p, st1) := invoke_fn args st in
  let '(a, st2) := alloc st1 in
  let cachedData :=
    {| addr := a;
       value := oldCache ≫= value;
       extra := oldCache ≫= extra;
       key := cacheKey;
       promise := p;
       expireAt := (-1)%Z;
       settled := false |} in
  let st3 := cache_set st2 cacheGroup (Some cachedData) in
  let st4 := promise_then p {| h_group := cacheGroup; h_data := cachedData |} st3 in
  (st4, p).

Definition call (now : Z) (ks : ICacheKeyTuple) (args : T) (st : State) : State * nat :=
  match cache_get st ks.1 with
  | Some cachedData =>
      if isFresh now ks st then (st, promise cachedData) else reload ks args st
  | None => reload ks args st
  end.

(** *** The context of [getContext] *)

(** [interface ICacheContext<U>], each method a closure over the state. *)
Record ICacheContext := {
  ctx_call : Z -> State -> State * nat;
  ctx_get : Z -> State -> option U;
  ctx_set : Z -> U -> option Z -> State -> State;
  ctx_delete : State -> State;
  ctx_reload : State -> State * nat;
  ctx_isSettled : State -> bool;
  ctx_isFresh : Z -> State -> bool;
}.

Definition getContext (ks : ICacheKeyTuple) (args : T) : ICacheContext :=
  {| ctx_call := fun now => call now ks args;
     ctx_get := fun now => get now ks;
     ctx_set := fun now v ttl' => set now ks (Some v) (Some (default (-1)%Z ttl'));
     ctx_delete := delete_ ks;
     ctx_reload := reload ks args;
     ctx_isSettled := isSettled ks;
     ctx_isFresh := fun now => isFresh now ks |}.

(** *** Settlement of a producer promise *)

(** The two callbacks given to [then]. *)
Definition run_handler (now : Z) (o : Outcome) (h : Handler) (st : State) : State :=
  match o with
  | Fulfilled v => resolve (h_group h) (h_data h) false (Some v) now st
  | Rejected => resolve (h_group h) (h_data h) true None now st
  end.

Definition handlers_on (p : nat) (hs : list (nat * Handler)) : list Handler :=
  (filter (fun ph => ph.1 = p) hs).*2.

Definition handlers_off (p : nat) (hs : list (nat * Handler)) : list (nat * Handler) :=
  filter (fun ph => ph.1 <> p) hs.

(** A pending promise [p] takes its outcome [o]; its callbacks leave the
    registrations to run. *)
Definition settling (p : nat) (o : Outcome) (st : State) : State :=
  {| cache := cache st;
     next_addr := next_addr st;
     promises := <[p := Settled o]> (promises st);
     invocations := invocations st;
     handlers := handlers_off p (handlers st) |}.

(** The environment settles the pending promise [p] with outcome [o]:
    the callbacks registered on it run, in registration order.  A promise
    settles once; settling anything else changes nothing. *)
Definition settle (now : Z) (p : nat) (o : Outcome) (st : State) : State :=
  match promises st !! p with
  | Some Pending =>
      foldl (fun s h => run_handler now o h s)
        (settling p o st)
        (handlers_on p (handlers st))
  | _ => st
  end.

(** *** Histories *)

Inductive Event :=
| ECall (ks : ICacheKeyTuple) (args : T)
| EReload (ks : ICacheKeyTuple) (args : T)
| ESet (ks : ICacheKeyTuple) (v : option U) (valueTtl : option Z)
| EDelete (ks : ICacheKeyTuple)
| EClear
| ESettle (p : nat) (o : Outcome).

Definition step (now : Z) (e : Event) (st : State) : State :=
  match e with
  | ECall ks args => (call now ks args st).1
  | EReload ks args => (reload ks args st).1
  | ESet ks v valueTtl => set now ks v valueTtl st
  | EDelete ks => delete_ ks st
  | EClear => clear st
  | ESettle p o => settle now p o st
  end.

(** A history: events in the order they run, each with the clock reading
    of its turn. *)
Definition run (tr : list (Z * Event)) (st : State) : State :=
  foldl (fun s ne => step ne.1 ne.2 s) st tr.

(** *** The facade *)

Variable numberToString : Num -> string.

(** The key tuple a consumer binds from what [resolveKey] returns; [None]
    when a component is [undefined], which [ICacheKeyTuple] excludes. *)
Definition bind_keys (keys : list string) : option ICacheKeyTuple :=
  match destructure keys with
  | (Some cacheGroup, Some cacheKey) => Some (cacheGroup, cacheKey)
  | _ => None
  end.

(** [withArgs(keyFn)]: resolve the keys of [args], then run [keyFn] on
    them, whatever array [resolveKey] returned; [keyFn] does the
    destructuring itself. *)
Definition withArgs {V : Type} (keyFn : list string -> T -> V) (args : T) : V :=
  let keys := resolveKey numberToString (resolver options) args in
  keyFn keys args.

(** [keyFn] is a consumer [([cacheGroup, cacheKey], args) => ...] whose
    body is [typed]: on an array that binds both components it runs
    [typed] on them.  Of arrays that leave a component [undefined] nothing
    is said. *)
Definition consumes {V : Type} (keyFn : list string -> T -> V)
    (typed : ICacheKeyTuple -> T -> V) : Prop :=
  forall cacheGroup cacheKey rest args,
    keyFn (cacheGroup :: cacheKey :: rest) args = typed (cacheGroup, cacheKey) args.

End Lifecycle.

Arguments ICacheData : clear implicits.
Arguments Outcome : clear implicits.
Arguments PromiseState : clear implicits.
Arguments Handler : clear implicits.
Arguments State : clear implicits.
Arguments Event : clear implicits.
Arguments ICacheContext : clear implicits.

(** ** Invariants of histories *)

Section Invariants.

Context {T U Extra : Type}.
Implicit Types (st : State T U Extra) (d cd : ICacheData U Extra).

(** Every object held by the store or captured by a callback has been
    allocated, and every callback sits on an existing promise. *)
Definition wf st : Prop :=
  (forall g d, cache_get st g = Some d -> addr d < next_addr st)
  /\ (forall p h, (p, h) ∈ handlers st ->
        p < length (promises st) /\ addr (h_data h) < next_addr st).

(** [later st st']: [st'] is [st] some turns later.  Addresses and promise
    identities only grow, whatever the store holds is either what it held
    or a newer object, a settled promise stays as it is, and the callbacks
    of a promise that is still pending are the ones it had. *)
Record later st st' : Prop := {
  later_addr : next_addr st <= next_addr st';
  later_cache : forall g d, cache_get st' g = Some d ->
    cache_get st g = Some d \/ next_addr st <= addr d < next_addr st';
  later_promises : length (promises st) <= length (promises st');
  later_settled : forall p o, promises st !! p = Some (Settled o) ->
    promises st' !! p = Some (Settled o);
  later_handlers : forall p h, (p, h) ∈ handlers st' ->
    (p, h) ∈ handlers st
    \/ (length (promises st) <= p < length (promises st')
        /\ next_addr st <= addr (h_data h) < next_addr st');
  later_pending : forall p, p < length (promises st) ->
    promises st' !! p = Some Pending ->
    handlers_on p (handlers st') = handlers_on p (handlers st);
  later_invocations : invocations st `prefix_of` invocations st';
}.

(** The object at address [a] has left the store. *)
Definition superseded (a : nat) st : Prop :=
  a < next_addr st /\ forall g d, cache_get st g = Some d -> addr d <> a.

(** Address [addr cd] denotes the object [cd], and only group [g] may
    hold it. *)
Definition denotes (g : string) cd st : Prop :=
  addr cd < next_addr st
  /\ forall g' d, cache_get st g' = Some d -> addr d = addr cd -> g' = g /\ d = cd.

(** The operations that replace or remove the entry of group [g]. *)
Definition supersedes (g : string) (e : Event T U) : bool :=
  match e with
  | EReload ks _ | ESet ks _ _ | EDelete ks => bool_decide (ks.1 = g)
  | EClear => true
  | ECall _ _ | ESettle _ _ => false
  end.

(** Successive invocations of the wrapped function on one key tuple, each
    at its own clock reading; the promises they return, in order. *)
Fixpoint calls (ks : ICacheKeyTuple) (l : list (Z * T)) st : State T U Extra * list nat :=
  match l with
  | [] => (st, [])
  | (now, args) :: l' =>
      let '(st1, p) := call now ks args st in
      let '(st2, ps) := calls ks l' st1 in
      (st2, p :: ps)
  end.

End Invariants.

(** ** Further invariants and the parts around the closure *)

Section Tracking.

Context {T U Extra : Type}.
Implicit Types (st : State T U Extra) (d : ICacheData U Extra).

(** No producer promise carries two callbacks, and an entry that is not
    settled is the one a reload built: it has the pending sentinel as
    [expireAt], its promise is still pending, and its callback is
    registered on that promise. *)
Definition tracked st : Prop :=
  NoDup (handlers st).*1
  /\ forall g d, cache_get st g = Some d -> settled d = false ->
       expireAt d = (-1)%Z
       /\ promises st !! promise d = Some Pending
       /\ (promise d, {| h_group := g; h_data := d |}) ∈ handlers st.

(** The group an operation addresses; [clear] and settlements address
    none in particular. *)
Definition event_group (e : Event T U) : option string :=
  match e with
  | ECall ks _ | EReload ks _ | ESet ks _ _ | EDelete ks => Some ks.1
  | EClear | ESettle _ _ => None
  end.

(** The invocations of the producer an operation makes at clock reading
    [now] in state [st]. *)
Definition event_invocations (now : Z) (e : Event T U) st : list T :=
  match e with
  | EReload _ args => [args]
  | ECall ks args => if isFresh now ks st then [] else [args]
  | ESet _ _ _ | EDelete _ | EClear | ESettle _ _ => []
  end.

End Tracking.

(** *** The MobX storage of the README *)

Section ReadmeStorage.

(** [createCache<T>()] of the README's MobX example, for entries of type
    [D].  [target.value] is declared [observable.ref]: only its
    reassignment is observed and the record assigned to it, with the
    objects in it, is kept as it is, so [get] answers with the stored
    object itself.  The record keeps a slot for every key ever set, and a
    slot set without data holds [undefined] (here [None]).  (The Vue
    example of the README, a deep [ref], answers with proxies and is not
    this storage.) *)
Context {D : Type}.





End ReadmeStorage.

(** *** The registry of [cacheAsyncFactory] *)

(** A wrapped function as the registry sees it: its state, at its own
    types ([ICachedFunction<any, any>]). *)
Record ICachedFunction := {
  cf_T : Type;
  cf_U : Type;
  cf_Extra : Type;
  cf_state : State cf_T cf_U cf_Extra;
}.

(** [cacheAsync(fn, options)] as far as the registry goes: the new
    function starts on the empty storage [cacheFactory()] returns, and is
    pushed onto [cachedFns]. *)
Definition cacheAsync (T U Extra : Type) (cachedFns : list ICachedFunction)
    : list ICachedFunction :=
  cachedFns ++ [{| cf_T := T; cf_U := U; cf_Extra := Extra; cf_state := init |}].

(** [getAll: () => cachedFns] *)
Definition getAll (cachedFns : list ICachedFunction) : list ICachedFunction :=
  cachedFns.

(** [fn.clear()] on a registered function. *)
Definition cf_clear (fn : ICachedFunction) : ICachedFunction :=
  {| cf_T := cf_T fn; cf_U := cf_U fn; cf_Extra := cf_Extra fn;
     cf_state := clear (cf_state fn) |}.

(** [clearCache = () => cachedFns.forEach((fn) => fn.clear())] *)
Definition clearCache (cachedFns : list ICachedFunction) : list ICachedFunction :=
  map cf_clear cachedFns.

(** ** Sample instances *)

(** A wrapped function of one numeric argument with integer results,
    no extra entry properties and no [null] result. *)
Definition demo_options (mr : bool) (t : Z) : ICacheOptions Z Z :=
  {| resolver := defaultResolver; mustRevalidate := mr; ttl := t |}.

Definition demo_init : State Z Z unit := init.

Definition never_null : Z -> bool := fun _ => false.

(** The history "call with argument 1 under key tuple (g, a) at time 0,
    then the producer's promise is fulfilled with 7 at time 5". *)
Definition demo_load : list (Z * Event Z Z) :=
  [(0%Z, ECall ("g"%string, "a"%string) 1%Z);
   (5%Z, ESettle 0 (Fulfilled 7%Z))].

(** The state that history leaves, for a configured ttl [t]. *)
Definition demo_loaded (mr : bool) (t : Z) : State Z Z unit :=
  run never_null (demo_options mr t) demo_load demo_init.

(** ** Properties *)

Section Properties.

Context {T U Extra Num : Type}.
Variable isNull : U -> bool.
Variable options : ICacheOptions T Num.
Variable numberToString : Num -> string.

Implicit Types (st : State T U Extra) (d cachedData : ICacheData U Extra).
Implicit Types (ks : ICacheKeyTuple) (now : Z) (args : T).

(** *** The storage collaborator: read after write *)

Lemma cache_get_set_eq st g data : cache_get (cache_set st g data) g = data.
Proof.
  unfold cache_get, cache_set; simpl. destruct data.
  - apply lookup_insert_eq.
  - apply lookup_delete_eq.
Qed.

Lemma cache_get_set_ne st g g' data :
  g <> g' -> cache_get (cache_set st g data) g' = cache_get st g'.
Proof.
  intros Hne. unfold cache_get, cache_set; simpl. destruct data.
  - by apply lookup_insert_ne.
  - by apply lookup_delete_ne.
Qed.

Lemma cache_get_clear st g : cache_get (cache_clear st) g = None.
Proof. apply lookup_empty. Qed.

Lemma not_identical_self d : not_identical (Some d) d = false.
Proof. simpl. by rewrite Nat.eqb_refl. Qed.

(** *** Freshness *)

Lemma isFresh_true_iff now g k st :
  isFresh now (g, k) st = true <->
  exists d, cache_get st g = Some d /\ key d = k /\ settled d = true
            /\ (expireAt d < 0 \/ now < expireAt d)%Z.
Proof.
  unfold isFresh. destruct (cache_get st g) as [d|].
  - rewrite !andb_true_iff, orb_true_iff, bool_decide_eq_true, Z.ltb_lt, Z.gtb_lt.
    split.
    + intros [[Hk Hs] He]. exists d. tauto.
    + intros (d' & Hd & Hk & Hs & He). inversion Hd; subst d'. tauto.
  - split; [discriminate|]. intros (d & Hd & _). discriminate.
Qed.

Lemma isFresh_false_key now g k st d :
  cache_get st g = Some d -> key d <> k -> isFresh now (g, k) st = false.
Proof.
  intros Hd Hk. unfold isFresh. rewrite Hd.
  by rewrite (bool_decide_eq_false_2 _ Hk).
Qed.

Lemma isSettled_false_key g k st d :
  cache_get st g = Some d -> key d <> k -> isSettled (g, k) st = false.
Proof.
  intros Hd Hk. unfold isSettled. rewrite Hd.
  by rewrite (bool_decide_eq_false_2 _ Hk).
Qed.

(** *** The settlement callback, case by case *)

Lemma resolve_superseded g cachedData error v now st :
  not_identical (cache_get st g) cachedData = true ->
  resolve options g cachedData error v now st = st.
Proof. intros H. unfold resolve. by rewrite H. Qed.

Lemma resolve_current g cachedData error v now st :
  cache_get st g = Some cachedData ->
  cache_get (resolve options g cachedData error v now st) g =
    Some {| addr := next_addr st;
            key := key cachedData;
            promise := promise cachedData;
            extra := extra cachedData;
            value := v;
            expireAt := if error then 0%Z
                        else if (ttl options <? 0)%Z then ttl options
                        else (now + ttl options)%Z;
            settled := true |}.
Proof.
  intros H. unfold resolve. rewrite H, not_identical_self. simpl.
  apply cache_get_set_eq.
Qed.

(** *** States only move forward *)

Lemma later_refl st : later st st.
Proof.
  constructor; auto.
Qed.

Lemma later_trans st1 st2 st3 : later st1 st2 -> later st2 st3 -> later st1 st3.
Proof.
  intros H12 H23.
  pose proof (later_addr _ _ H12). pose proof (later_addr _ _ H23).
  pose proof (later_promises _ _ H12). pose proof (later_promises _ _ H23).
  constructor.
  - lia.
  - intros g d Hd. destruct (later_cache _ _ H23 g d Hd) as [Hd2|?]; [|right; lia].
    destruct (later_cache _ _ H12 g d Hd2) as [?|?]; [by left|right; lia].
  - lia.
  - intros p o Hp. eapply later_settled; [exact H23|]. by eapply later_settled.
  - intros p h Hh. destruct (later_handlers _ _ H23 p h Hh) as [Hh2|?]; [|right; lia].
    destruct (later_handlers _ _ H12 p h Hh2) as [?|?]; [by left|right; lia].
  - intros p Hlt Hp.
    rewrite (later_pending _ _ H23 p) by (done || lia).
    apply (later_pending _ _ H12 p Hlt).
    destruct (lookup_lt_is_Some_2 (promises st2) p) as [[|o] Hx]; [lia|done|].
    rewrite (later_settled _ _ H23 p o Hx) in Hp. discriminate.
  - etrans; [apply H12|apply H23].
Qed.

Lemma handlers_on_app p (hs1 hs2 : list (nat * Handler U Extra)) :
  handlers_on p (hs1 ++ hs2) = handlers_on p hs1 ++ handlers_on p hs2.
Proof. unfold handlers_on. by rewrite filter_app, fmap_app. Qed.

Lemma handlers_on_none p (hs : list (nat * Handler U Extra)) :
  (forall p' h, (p', h) ∈ hs -> p' <> p) -> handlers_on p hs = [].
Proof.
  intros Hall. unfold handlers_on.
  induction hs as [|[p' h] hs IH]; [done|].
  rewrite filter_cons. destruct (decide ((p', h).1 = p)) as [Heq|Hne].
  - exfalso. apply (Hall p' h); [left|exact Heq].
  - apply IH. intros p'' h' Hin. apply (Hall p'' h'). by right.
Qed.

Lemma handlers_on_off p p' (hs : list (nat * Handler U Extra)) :
  p <> p' -> handlers_on p (handlers_off p' hs) = handlers_on p hs.
Proof.
  intros Hne. unfold handlers_on, handlers_off. f_equal.
  induction hs as [|[q h] hs IH]; [done|].
  rewrite !filter_cons. simpl.
  destruct (decide (q ≠ p')) as [Hq|Hq].
  - rewrite filter_cons. simpl. destruct (decide (q = p)); by rewrite IH.
  - destruct (decide (q = p)) as [->|]; [|done].
    exfalso. apply Hq. done.
Qed.

(** Side conditions of [later_write] when a list of new items is empty. *)
Ltac no_new_items :=
  simpl; rewrite ?app_nil_r; try done;
  try (intros ? ? Hin; by apply elem_of_nil in Hin).

(** One write: a new object at group [g], new promises, new callbacks on
    them, new invocations. *)
Lemma later_write st st' g d ps hs inv :
  next_addr st' = S (next_addr st) ->
  cache st' = <[g := d]> (cache st) ->
  addr d = next_addr st ->
  promises st' = promises st ++ ps ->
  handlers st' = handlers st ++ hs ->
  (forall p h, (p, h) ∈ hs ->
     length (promises st) <= p < length (promises st ++ ps)
     /\ addr (h_data h) = next_addr st) ->
  invocations st' = invocations st ++ inv ->
  later st st'.
Proof.
  intros Hn Hc Ha Hp Hh Hhs Hi. constructor.
  - lia.
  - intros g' d'. unfold cache_get. rewrite Hc.
    destruct (decide (g = g')) as [->|Hne].
    + rewrite lookup_insert_eq. intros [= <-]. right. lia.
    + rewrite lookup_insert_ne by done. by left.
  - rewrite Hp, length_app. lia.
  - intros p o Hl. rewrite Hp. rewrite lookup_app_l; [done|].
    by eapply lookup_lt_Some.
  - intros p h. rewrite Hh, elem_of_app. intros [?|Hin]; [by left|right].
    destruct (Hhs p h Hin) as [? ?]. rewrite Hp. lia.
  - intros p Hlt _. rewrite Hh, handlers_on_app.
    rewrite (handlers_on_none p hs); [by rewrite app_nil_r|].
    intros p' h Hin. destruct (Hhs p' h Hin). lia.
  - rewrite Hi. by apply prefix_app_r.
Qed.

(** Removing entries only. *)
Lemma later_remove st st' :
  next_addr st' = next_addr st ->
  (forall g d, cache st' !! g = Some d -> cache st !! g = Some d) ->
  promises st' = promises st ->
  handlers st' = handlers st ->
  invocations st' = invocations st ->
  later st st'.
Proof.
  intros Hn Hc Hp Hh Hi. constructor.
  - lia.
  - intros g d Hd. left. by apply Hc.
  - by rewrite Hp.
  - intros p o. by rewrite Hp.
  - intros p h. rewrite Hh. by left.
  - intros p _ _. by rewrite Hh.
  - by rewrite Hi.
Qed.

Lemma later_set now ks v valueTtl st : later st (set isNull options now ks v valueTtl st).
Proof.
  destruct ks as [g k].
  eapply (later_write _ _ g _ [settled_promise_of isNull v] [] []); no_new_items.
Qed.

Lemma later_delete ks st : later st (delete_ ks st).
Proof.
  apply later_remove; simpl; try done.
  intros g d. destruct (decide (ks.1 = g)) as [->|Hne].
  - by rewrite lookup_delete_eq.
  - by rewrite lookup_delete_ne.
Qed.

Lemma later_clear st : later st (clear st).
Proof.
  apply later_remove; simpl; done.
Qed.

Lemma later_reload ks args st : later st (reload ks args st).1.
Proof.
  destruct ks as [g k].
  eapply (later_write _ _ g _ [Pending] [_] [args]); simpl; try done.
  intros p h Hin. apply list_elem_of_singleton in Hin. inversion Hin; subst.
  simpl. rewrite length_app. simpl. lia.
Qed.

Lemma later_call now ks args st : later st (call now ks args st).1.
Proof.
  unfold call. destruct (cache_get st ks.1); [|apply later_reload].
  destruct (isFresh now ks st); [apply later_refl|apply later_reload].
Qed.

Lemma later_resolve g cd error v now st :
  later st (resolve options g cd error v now st).
Proof.
  unfold resolve. destruct (not_identical _ _); [apply later_refl|].
  eapply (later_write _ _ g _ [] [] []); no_new_items.
Qed.

Lemma later_run_handler now o h st : later st (run_handler options now o h st).
Proof. destruct o; apply later_resolve. Qed.

Lemma later_run_handlers now o hs st :
  later st (foldl (fun s h => run_handler options now o h s) st hs).
Proof.
  revert st. induction hs as [|h hs IH]; intros st; simpl.
  - apply later_refl.
  - eapply later_trans; [apply later_run_handler|apply IH].
Qed.

(** The state in which the callbacks of a settling promise start. *)
Lemma later_settling p o st :
  promises st !! p = Some Pending -> later st (settling p o st).
Proof.
  intros Hp. pose proof (lookup_lt_Some _ _ _ Hp) as Hlt.
  constructor; simpl.
  - lia.
  - intros g d Hd. by left.
  - by rewrite length_insert.
  - intros p' o' Hp'. rewrite list_lookup_insert_ne; [done|].
    intros ->. rewrite Hp in Hp'. discriminate.
  - intros p' h Hin. left. unfold handlers_off in Hin.
    apply list_elem_of_filter in Hin. tauto.
  - intros p' _ Hp'. apply handlers_on_off. intros ->.
    rewrite list_lookup_insert_eq in Hp' by done. discriminate.
  - done.
Qed.

Lemma later_settle now p o st : later st (settle options now p o st).
Proof.
  unfold settle. destruct (promises st !! p) as [[|o']|] eqn:Hp;
    try apply later_refl.
  eapply later_trans; [by apply later_settling|apply later_run_handlers].
Qed.

Lemma later_step now e st : later st (step isNull options now e st).
Proof.
  destruct e; simpl.
  - apply later_call.
  - apply later_reload.
  - apply later_set.
  - apply later_delete.
  - apply later_clear.
  - apply later_settle.
Qed.

Lemma later_run tr st : later st (run isNull options tr st).
Proof.
  revert st. induction tr as [|[now e] tr IH]; intros st; simpl.
  - apply later_refl.
  - eapply later_trans; [apply later_step|apply IH].
Qed.

(** *** What moving forward preserves *)

Lemma wf_init : wf (@init T U Extra).
Proof.
  split.
  - intros g d Hd. unfold cache_get in Hd. simpl in Hd.
    by rewrite lookup_empty in Hd.
  - intros p h Hin. by apply elem_of_nil in Hin.
Qed.

Lemma wf_later st st' : wf st -> later st st' -> wf st'.
Proof.
  intros [Hc Hh] L.
  pose proof (later_addr _ _ L). pose proof (later_promises _ _ L).
  split.
  - intros g d Hd. destruct (later_cache _ _ L g d Hd) as [Hd'|?]; [|lia].
    specialize (Hc g d Hd'). lia.
  - intros p h Hin. destruct (later_handlers _ _ L p h Hin) as [Hin'|?]; [|lia].
    destruct (Hh p h Hin'). lia.
Qed.

Lemma wf_run tr : wf (run isNull options tr (init : State T U Extra)).
Proof. eapply wf_later; [apply wf_init|apply later_run]. Qed.

Lemma superseded_later a st st' : superseded a st -> later st st' -> superseded a st'.
Proof.
  intros [Ha Hc] L. pose proof (later_addr _ _ L). split; [lia|].
  intros g d Hd. destruct (later_cache _ _ L g d Hd) as [Hd'|?]; [|lia].
  by apply (Hc g).
Qed.

Lemma denotes_later g cd st st' : denotes g cd st -> later st st' -> denotes g cd st'.
Proof.
  intros [Ha Hc] L. pose proof (later_addr _ _ L). split; [lia|].
  intros g' d Hd Heq. destruct (later_cache _ _ L g' d Hd) as [Hd'|?]; [|lia].
  by apply Hc.
Qed.

Lemma superseded_not_identical a g cd st :
  superseded a st -> addr cd = a -> not_identical (cache_get st g) cd = true.
Proof.
  intros [_ Hc] Ha. unfold not_identical.
  destruct (cache_get st g) as [d|] eqn:Hd; [|done].
  apply negb_true_iff, Nat.eqb_neq. rewrite Ha. by apply (Hc g).
Qed.

(** *** What [reload] leaves behind *)

(** The object literal [cachedData] of [reload]. *)
Lemma reload_cache_get g k args st :
  cache_get (reload (g, k) args st).1 g =
    Some {| addr := next_addr st;
            key := k;
            promise := length (promises st);
            settled := false;
            value := cache_get st g ≫= value;
            expireAt := (-1)%Z;
            extra := cache_get st g ≫= extra |}.
Proof. unfold cache_get. simpl. apply lookup_insert_eq. Qed.

Lemma reload_promise ks args st : (reload ks args st).2 = length (promises st).
Proof. by destruct ks. Qed.

Lemma reload_promises ks args st :
  promises (reload ks args st).1 = promises st ++ [Pending].
Proof. by destruct ks. Qed.

Lemma reload_invocations ks args st :
  invocations (reload ks args st).1 = invocations st ++ [args].
Proof. by destruct ks. Qed.

Lemma reload_next_addr ks args st :
  next_addr (reload ks args st).1 = S (next_addr st).
Proof. by destruct ks. Qed.

Lemma reload_cache_get_ne g g' k args st :
  g <> g' -> cache_get (reload (g, k) args st).1 g' = cache_get st g'.
Proof. intros Hne. unfold cache_get. simpl. by apply lookup_insert_ne. Qed.

(** In a well-formed state the new promise carries exactly the callback of
    this reload. *)
Lemma reload_handlers_on g k args st cd :
  wf st ->
  cache_get (reload (g, k) args st).1 g = Some cd ->
  handlers_on (reload (g, k) args st).2 (handlers (reload (g, k) args st).1)
  = [{| h_group := g; h_data := cd |}].
Proof.
  intros [_ Hh] Hcd. rewrite reload_cache_get in Hcd. injection Hcd as <-.
  simpl. rewrite handlers_on_app.
  rewrite (handlers_on_none (length (promises st)) (handlers st)).
  - unfold handlers_on. rewrite filter_cons. simpl.
    by destruct (decide (length (promises st) = length (promises st))).
  - intros p' h Hin. destruct (Hh p' h Hin). lia.
Qed.

(** The installed object is the only one at its address. *)
Lemma reload_denotes g k args st cd :
  wf st ->
  cache_get (reload (g, k) args st).1 g = Some cd ->
  denotes g cd (reload (g, k) args st).1.
Proof.
  intros [Hc _] Hcd. pose proof Hcd as Hcd'.
  rewrite reload_cache_get in Hcd'. injection Hcd' as <-.
  split; [simpl; lia|]. simpl addr at 2.
  intros g' d Hd Ha. destruct (decide (g = g')) as [<-|Hne].
  - rewrite reload_cache_get in Hd. by injection Hd as <-.
  - rewrite reload_cache_get_ne in Hd by done. specialize (Hc g' d Hd). lia.
Qed.

(** After a superseding operation the installed object is gone for good. *)
Lemma superseded_after now e g k args st :
  wf st -> supersedes g e = true ->
  superseded (next_addr st) (step isNull options now e (reload (g, k) args st).1).
Proof.
  intros [Hc _] Hs.
  assert (Hold : forall g' d, g <> g' ->
            cache_get (reload (g, k) args st).1 g' = Some d -> addr d <> next_addr st).
  { intros g' d Hne Hd. rewrite reload_cache_get_ne in Hd by done.
    specialize (Hc g' d Hd). lia. }
  pose proof (later_addr _ _ (later_step now e (reload (g, k) args st).1)) as Hn.
  rewrite reload_next_addr in Hn.
  split; [lia|]. clear Hn.
  destruct e as [ks a|[g0 k0] a|[g0 k0] v t|[g0 k0]| |p o];
    try (exfalso; discriminate Hs);
    simpl in Hs; try (apply bool_decide_eq_true in Hs; subst g0);
    intros g' d Hd; cbn [step] in Hd.
  - destruct (decide (g = g')) as [<-|Hne].
    + rewrite reload_cache_get in Hd. injection Hd as <-.
      cbn [addr]. lia.
    + rewrite reload_cache_get_ne in Hd by done. by eapply Hold.
  - destruct (decide (g = g')) as [<-|Hne].
    + unfold cache_get in Hd. simpl in Hd. rewrite lookup_insert_eq in Hd.
      injection Hd as <-. simpl. lia.
    + apply (Hold g' d Hne). unfold cache_get in *. simpl in *.
      by rewrite lookup_insert_ne in Hd.
  - destruct (decide (g = g')) as [<-|Hne].
    + unfold cache_get in Hd. simpl in Hd. by rewrite lookup_delete_eq in Hd.
    + apply (Hold g' d Hne). unfold cache_get in *. simpl in *.
      by rewrite lookup_delete_ne in Hd.
  - unfold cache_get in Hd. simpl in Hd. by rewrite lookup_empty in Hd.
Qed.

(** *** From [reload] to the settlement of its promise *)

(** While the promise of a reload is pending, settling it runs the one
    callback of that reload. *)
Lemma settle_of_reload_later g k args now o cd st st2 :
  wf st ->
  cache_get (reload (g, k) args st).1 g = Some cd ->
  later (reload (g, k) args st).1 st2 ->
  promises st2 !! (reload (g, k) args st).2 = Some Pending ->
  settle options now (reload (g, k) args st).2 o st2
  = run_handler options now o {| h_group := g; h_data := cd |}
      (settling (reload (g, k) args st).2 o st2).
Proof.
  intros Hwf Hcd L Hp. unfold settle. rewrite Hp.
  rewrite (later_pending _ _ L); [|..|done].
  - by rewrite (reload_handlers_on g k args st cd).
  - rewrite reload_promise, reload_promises, length_app. simpl. lia.
Qed.

Lemma settle_of_reload g k args tr now o cd st :
  wf st ->
  cache_get (reload (g, k) args st).1 g = Some cd ->
  promises (run isNull options tr (reload (g, k) args st).1)
    !! (reload (g, k) args st).2 = Some Pending ->
  settle options now (reload (g, k) args st).2 o
    (run isNull options tr (reload (g, k) args st).1)
  = run_handler options now o {| h_group := g; h_data := cd |}
      (settling (reload (g, k) args st).2 o
         (run isNull options tr (reload (g, k) args st).1)).
Proof.
  intros Hwf Hcd Hp. apply settle_of_reload_later; try done. apply later_run.
Qed.

Lemma settle_not_pending now p o st :
  promises st !! p <> Some Pending -> settle options now p o st = st.
Proof.
  intros Hp. unfold settle. by destruct (promises st !! p) as [[|?]|].
Qed.

Lemma run_handler_promises now o h st :
  promises (run_handler options now o h st) = promises st.
Proof.
  destruct o; simpl; unfold resolve; by destruct (not_identical _ _).
Qed.

Lemma run_handler_invocations now o h st :
  invocations (run_handler options now o h st) = invocations st.
Proof.
  destruct o; simpl; unfold resolve; by destruct (not_identical _ _).
Qed.

(** The value and the expiry a callback writes back for outcome [o]. *)
Lemma run_handler_current now o g cd st :
  cache_get st g = Some cd ->
  cache_get (run_handler options now o {| h_group := g; h_data := cd |} st) g =
    Some {| addr := next_addr st;
            key := key cd;
            promise := promise cd;
            extra := extra cd;
            value := match o with Fulfilled v => Some v | Rejected => None end;
            expireAt := match o with
                        | Rejected => 0%Z
                        | Fulfilled _ =>
                            if (ttl options <? 0)%Z then ttl options
                            else (now + ttl options)%Z
                        end;
            settled := true |}.
Proof. intros H. destruct o; simpl; by rewrite (resolve_current _ _ _ _ _ _ H). Qed.

(** The whole path: [reload], any history that leaves the promise pending
    and the installed entry current, then the settlement. *)
Lemma settlement_writes_back g k args tr now o st :
  wf st ->
  promises (run isNull options tr (reload (g, k) args st).1)
    !! (reload (g, k) args st).2 = Some Pending ->
  cache_get (run isNull options tr (reload (g, k) args st).1) g
    = cache_get (reload (g, k) args st).1 g ->
  let st3 := settle options now (reload (g, k) args st).2 o
               (run isNull options tr (reload (g, k) args st).1) in
  cache_get st3 g =
    Some {| addr := next_addr (run isNull options tr (reload (g, k) args st).1);
            key := k;
            promise := (reload (g, k) args st).2;
            extra := cache_get st g ≫= extra;
            value := match o with Fulfilled v => Some v | Rejected => None end;
            expireAt := match o with
                        | Rejected => 0%Z
                        | Fulfilled _ =>
                            if (ttl options <? 0)%Z then ttl options
                            else (now + ttl options)%Z
                        end;
            settled := true |}
  /\ promises st3 !! (reload (g, k) args st).2 = Some (Settled o)
  /\ length (promises st3)
     = length (promises (run isNull options tr (reload (g, k) args st).1))
  /\ invocations st3
     = invocations (run isNull options tr (reload (g, k) args st).1).
Proof.
  intros Hwf Hp Hcur st3. subst st3.
  rewrite (settle_of_reload g k args tr now o _ st Hwf (reload_cache_get g k args st) Hp).
  rewrite reload_cache_get in Hcur.
  split; [|split; [|split]].
  - erewrite run_handler_current; [|exact Hcur]. done.
  - rewrite run_handler_promises. simpl.
    apply list_lookup_insert_eq. by eapply lookup_lt_Some.
  - rewrite run_handler_promises. simpl. by rewrite length_insert.
  - by rewrite run_handler_invocations.
Qed.

(** *** Race safety *)

(** C1. The settlement callback that [reload] registers writes to the
    store only when the store's entry for its group is still the very
    object this reload installed.  Once a later reload, set, delete or
    clear has replaced or removed that entry, the callback writes nothing,
    whatever else happens before the promise settles and however it
    settles: the settlement leaves the store as it is. *)
Theorem superseded_settlement_never_writes tr0 g k args :
  let st : State T U Extra := run isNull options tr0 init in
  let r := reload (g, k) args st in
  exists cd,
    cache_get r.1 g = Some cd
    /\ handlers_on r.2 (handlers r.1) = [{| h_group := g; h_data := cd |}]
    /\ (forall tr error v now,
          let st' := run isNull options tr r.1 in
          resolve options g cd error v now st' <> st' ->
          cache_get st' g = Some cd)
    /\ (forall now_e e tr error v now o,
          supersedes g e = true ->
          let st' := run isNull options tr (step isNull options now_e e r.1) in
          resolve options g cd error v now st' = st'
          /\ cache (settle options now r.2 o st') = cache st').
Proof.
  intros st r. pose proof (wf_run tr0) as Hwf. fold st in Hwf.
  eexists. split; [apply reload_cache_get|].
  split; [by apply reload_handlers_on, reload_cache_get|].
  split.
  - intros tr error v now st' Hw.
    pose proof (reload_denotes g k args st _ Hwf (reload_cache_get g k args st)) as Hden.
    apply (fun H => denotes_later _ _ _ st' H (later_run tr r.1)) in Hden.
    destruct Hden as [_ Hden].
    unfold resolve in Hw.
    destruct (cache_get st' g) as [d|] eqn:Hd; simpl in Hw; [|done].
    destruct (addr d =? next_addr st)%nat eqn:Ha; simpl in Hw; [|done].
    apply Nat.eqb_eq in Ha. f_equal. by apply (Hden g d Hd).
  - intros now_e e tr error v now o Hs st'.
    assert (Hsup : superseded (next_addr st) st').
    { eapply superseded_later; [by apply superseded_after|apply later_run]. }
    assert (Hni : forall st0, cache st0 = cache st' ->
              not_identical (cache_get st0 g)
                {| addr := next_addr st; key := k; promise := length (promises st);
                   settled := false; value := cache_get st g ≫= value;
                   expireAt := (-1)%Z; extra := cache_get st g ≫= extra |} = true).
    { intros st0 Hs'. unfold cache_get. rewrite Hs'.
      by apply (superseded_not_identical (next_addr st)). }
    split; [apply resolve_superseded; by apply Hni|].
    destruct (promises st' !! r.2) as [[|o']|] eqn:Hp;
      [|by rewrite settle_not_pending; [|rewrite Hp]..].
    subst r. erewrite settle_of_reload_later;
        [|exact Hwf|apply reload_cache_get| |exact Hp].
    + destruct o; simpl; rewrite resolve_superseded; try done; by apply Hni.
    + eapply later_trans; [apply later_step|apply later_run].
Qed.

(** *** Deduplication *)

Lemma call_fresh now ks args st d :
  cache_get st ks.1 = Some d -> isFresh now ks st = true ->
  call now ks args st = (st, promise d).
Proof. intros Hd Hf. unfold call. by rewrite Hd, Hf. Qed.

Lemma call_not_fresh now ks args st :
  isFresh now ks st = false -> call now ks args st = reload ks args st.
Proof.
  intros Hf. unfold call. rewrite Hf. by destruct (cache_get st ks.1).
Qed.

Lemma isFresh_pending now g k st d :
  cache_get st g = Some d -> settled d = false -> isFresh now (g, k) st = false.
Proof.
  intros Hd Hs. unfold isFresh. rewrite Hd, Hs. by rewrite andb_false_r.
Qed.

Lemma calls_fresh g k st d l :
  cache_get st g = Some d ->
  Forall (fun na => isFresh na.1 (g, k) st = true) l ->
  calls (g, k) l st = (st, replicate (length l) (promise d)).
Proof.
  intros Hd. induction l as [|[now args] l IH]; intros Hall; [done|].
  apply Forall_cons in Hall as [Hf Hall]. simpl in Hf.
  cbn [calls]. rewrite (call_fresh now (g, k) args st d Hd Hf).
  by rewrite (IH Hall).
Qed.

(** One producer invocation serves every call made while its result is
    fresh: the call that reloads logs it, and after the fulfilment every
    call at a clock reading where the entry is fresh returns the promise of
    that first call. *)
Lemma one_invocation_serves_fresh_calls tr0 g k args now0 tr now v l :
  let st : State T U Extra := run isNull options tr0 init in
  let c := call now0 (g, k) args st in
  let st2 := run isNull options tr c.1 in
  let st3 := settle options now c.2 (Fulfilled v) st2 in
  isFresh now0 (g, k) st = false ->
  promises st2 !! c.2 = Some Pending ->
  cache_get st2 g = cache_get c.1 g ->
  Forall (fun na => isFresh na.1 (g, k) st3 = true) l ->
  invocations c.1 = invocations st ++ [args]
  /\ calls (g, k) l st3 = (st3, replicate (length l) c.2)
  /\ invocations (calls (g, k) l st3).1 = invocations st2.
Proof.
  intros st c st2 st3 Hnf. subst st3 st2 c.
  rewrite (call_not_fresh now0 (g, k) args st Hnf).
  intros Hp Hcur Hall.
  destruct (settlement_writes_back g k args tr now (Fulfilled v) st
              (wf_run tr0) Hp Hcur) as (Hd & _ & _ & Hinv).
  split; [apply reload_invocations|].
  rewrite (calls_fresh g k _ _ l Hd Hall). by split.
Qed.

(** What [call] does with the entry of the group.  While it is fresh for
    the key tuple, every call returns the promise stored in it and leaves
    the state alone, so no producer invocation is added: this is the part
    of C2 the code keeps.  While it is not settled, [isFresh] fails on
    its [settled] conjunct and every call reloads. *)
Theorem calls_share_promise_while_fresh g k st d :
  cache_get st g = Some d ->
  (forall l,
     Forall (fun na => isFresh na.1 (g, k) st = true) l ->
     calls (g, k) l st = (st, replicate (length l) (promise d)))
  /\ (settled d = false ->
      forall now args,
        call now (g, k) args st = reload (g, k) args st
        /\ invocations (call now (g, k) args st).1 = invocations st ++ [args]
        /\ (call now (g, k) args st).2 = length (promises st)).
Proof.
  intros Hd. split.
  - intros l. by apply calls_fresh.
  - intros Hs now args.
    rewrite (call_not_fresh now (g, k) args st (isFresh_pending now g k st d Hd Hs)).
    by rewrite reload_invocations, reload_promise.
Qed.

(** *** Reading the cache *)

(** C3, as the code has it.  [get] returns the value of the group's entry
    exactly when an entry exists for the group and either [mustRevalidate]
    is off or the entry is fresh for the requested key tuple; otherwise it
    returns nothing.  An entry stored under another key is never fresh nor
    settled for the requested one, and with [mustRevalidate] on [get]
    withholds its value; with [mustRevalidate] off [get] does not look at
    the key and still returns the stored value. *)
Theorem get_returns_value_iff g k now st :
  (forall d, cache_get st g = Some d ->
     mustRevalidate options = false \/ isFresh now (g, k) st = true ->
     get options now (g, k) st = value d)
  /\ (cache_get st g = None
      \/ (mustRevalidate options = true /\ isFresh now (g, k) st = false) ->
      get options now (g, k) st = None)
  /\ (forall d, cache_get st g = Some d -> key d <> k ->
        isFresh now (g, k) st = false
        /\ isSettled (g, k) st = false
        /\ (mustRevalidate options = true -> get options now (g, k) st = None)
        /\ (mustRevalidate options = false -> get options now (g, k) st = value d)).
Proof.
  split; [|split].
  - intros d Hd H. unfold get. rewrite Hd.
    destruct H as [-> | ->]; by rewrite ?orb_true_r.
  - intros [Hn | [Hm Hf]]; unfold get.
    + by rewrite Hn.
    + rewrite Hm, Hf. by destruct (cache_get st g).
  - intros d Hd Hk.
    pose proof (isFresh_false_key now g k st d Hd Hk) as Hf.
    split; [done|]. split; [by eapply isSettled_false_key|].
    unfold get. rewrite Hd, Hf. split; by intros ->.
Qed.

(** C4, as the code has it.  [isFresh] holds exactly when the stored entry
    has the requested key, is settled, and its [expireAt] is negative or
    strictly later than the clock.  Hence, with [ttl >= 0], an entry whose
    promise was fulfilled at clock reading [now] (a timestamp, so not
    negative) is fresh at [now'] exactly when fewer than [ttl] milliseconds
    have passed. *)
Theorem isFresh_characterisation tr0 g k args tr now v :
  let st : State T U Extra := run isNull options tr0 init in
  let r := reload (g, k) args st in
  let st2 := run isNull options tr r.1 in
  let st3 := settle options now r.2 (Fulfilled v) st2 in
  promises st2 !! r.2 = Some Pending ->
  cache_get st2 g = cache_get r.1 g ->
  (0 <= ttl options)%Z ->
  (0 <= now)%Z ->
  (forall now' g' k' st',
     isFresh now' (g', k') st' = true <->
     exists d, cache_get st' g' = Some d /\ key d = k' /\ settled d = true
               /\ (expireAt d < 0 \/ now' < expireAt d)%Z)
  /\ (forall now', isFresh now' (g, k) st3 = true <-> (now' - now < ttl options)%Z).
Proof.
  intros st r st2 st3 Hp Hcur Httl Hnow.
  split; [intros; apply isFresh_true_iff|].
  intros now'.
  destruct (settlement_writes_back g k args tr now (Fulfilled v) st
              (wf_run tr0) Hp Hcur) as (Hd & _).
  fold r st2 st3 in Hd. rewrite isFresh_true_iff. rewrite Hd.
  assert (Hlt : (ttl options <? 0)%Z = false) by (apply Z.ltb_ge; lia).
  split.
  - intros (d & [= <-] & _ & _ & He). simpl in He. rewrite Hlt in He. lia.
  - intros H. eexists. split; [done|]. simpl. rewrite Hlt.
    repeat split. right. lia.
Qed.

(** *** Failure *)

(** C5.  When the producer's promise rejects while the entry of its reload
    is still the group's entry, the entry is written back as settled, with
    [expireAt = 0] and no value.  From then on [isSettled] holds and, at
    any clock reading (a timestamp, so not negative), [isFresh] fails and
    the next call reloads: it logs a new producer invocation and returns a
    new promise.  The promise that [reload] (and a call that reloads)
    returned is the producer's own, and it is the one that is rejected. *)
Theorem rejection_is_recorded_as_stale tr0 g k args tr now :
  let st : State T U Extra := run isNull options tr0 init in
  let r := reload (g, k) args st in
  let st2 := run isNull options tr r.1 in
  let st3 := settle options now r.2 Rejected st2 in
  promises st2 !! r.2 = Some Pending ->
  cache_get st2 g = cache_get r.1 g ->
  (exists d, cache_get st3 g = Some d
     /\ key d = k /\ promise d = r.2
     /\ settled d = true /\ expireAt d = 0%Z /\ value d = None)
  /\ isSettled (g, k) st3 = true
  /\ (forall now', (0 <= now')%Z ->
        isFresh now' (g, k) st3 = false
        /\ forall args',
             call now' (g, k) args' st3 = reload (g, k) args' st3
             /\ invocations (call now' (g, k) args' st3).1 = invocations st3 ++ [args']
             /\ (call now' (g, k) args' st3).2 <> r.2
             /\ promises (call now' (g, k) args' st3).1
                  !! (call now' (g, k) args' st3).2 = Some Pending)
  /\ r.2 = length (promises st)
  /\ promises r.1 !! r.2 = Some Pending
  /\ promises st3 !! r.2 = Some (Settled Rejected)
  /\ (forall now0, isFresh now0 (g, k) st = false -> call now0 (g, k) args st = r).
Proof.
  intros st r st2 st3 Hp Hcur.
  destruct (settlement_writes_back g k args tr now Rejected st
              (wf_run tr0) Hp Hcur) as (Hd & Hrej & Hlen & Hinv).
  fold r st2 st3 in Hd, Hrej, Hlen, Hinv.
  split; [eexists; split; [exact Hd|done]|].
  split; [unfold isSettled; rewrite Hd; simpl; by rewrite bool_decide_eq_true_2|].
  split; [|split; [apply reload_promise|split; [|split; [done|]]]].
  - intros now' Hnow'.
    assert (Hf : isFresh now' (g, k) st3 = false).
    { unfold isFresh. rewrite Hd. simpl.
      rewrite bool_decide_eq_true_2 by done. simpl.
      rewrite Z.gtb_ltb. by apply Z.ltb_ge. }
    split; [done|]. intros args'.
    rewrite (call_not_fresh now' (g, k) args' st3 Hf).
    split; [done|]. split; [apply reload_invocations|].
    rewrite reload_promise, reload_promises.
    pose proof (lookup_lt_Some _ _ _ Hrej) as Hlt.
    split; [lia|]. by rewrite lookup_app_r, Nat.sub_diag.
  - subst r. rewrite reload_promise, reload_promises.
    by rewrite lookup_app_r, Nat.sub_diag.
  - intros now0 Hf. by apply call_not_fresh.
Qed.

(** *** Reloading *)

(** C6.  Whatever the state, [reload] logs one producer invocation with the
    given arguments and, in the state it returns, the group holds a new
    object with the producer's new promise, the requested key,
    [expireAt = -1] and [settled = false]; the value and every other
    property of the entry it replaces are carried over (none when there was
    no entry).  Other groups keep their entries, and the callback is
    registered on the new promise. *)
Theorem reload_installs_pending_entry g k args st :
  let old := cache_get st g in
  let r := reload (g, k) args st in
  let cachedData :=
    {| addr := next_addr st;
       key := k;
       promise := r.2;
       settled := false;
       value := old ≫= value;
       expireAt := (-1)%Z;
       extra := old ≫= extra |} in
  invocations r.1 = invocations st ++ [args]
  /\ r.2 = length (promises st)
  /\ promises r.1 = promises st ++ [Pending]
  /\ cache r.1 = <[g := cachedData]> (cache st)
  /\ cache_get r.1 g = Some cachedData
  /\ isSettled (g, k) r.1 = false
  /\ handlers r.1 = handlers st ++ [(r.2, {| h_group := g; h_data := cachedData |})].
Proof.
  intros old r cachedData.
  repeat split; try done.
  - apply reload_cache_get.
  - unfold isSettled. subst r. rewrite reload_cache_get. simpl.
    by rewrite andb_false_r.
Qed.

(** *** Expiry of a successful load *)

(** C7, as the code has it.  When the producer's promise is fulfilled with
    [v] at clock reading [now] while the entry of its reload is still the
    group's entry, the entry is written back settled with value [v] and
    with [expireAt = now + ttl] when [ttl >= 0], and [expireAt = ttl]
    itself when [ttl < 0] (so [-1] for [ttl = -1]).  In the second case
    the entry is fresh at every clock reading. *)
Theorem fulfilment_sets_expiry tr0 g k args tr now v :
  let st : State T U Extra := run isNull options tr0 init in
  let r := reload (g, k) args st in
  let st2 := run isNull options tr r.1 in
  let st3 := settle options now r.2 (Fulfilled v) st2 in
  promises st2 !! r.2 = Some Pending ->
  cache_get st2 g = cache_get r.1 g ->
  exists d, cache_get st3 g = Some d
    /\ key d = k /\ promise d = r.2 /\ settled d = true /\ value d = Some v
    /\ ((0 <= ttl options)%Z -> expireAt d = (now + ttl options)%Z)
    /\ ((ttl options < 0)%Z ->
        expireAt d = ttl options
        /\ forall now', isFresh now' (g, k) st3 = true)
    /\ (ttl options = (-1)%Z -> expireAt d = (-1)%Z).
Proof.
  intros st r st2 st3 Hp Hcur.
  destruct (settlement_writes_back g k args tr now (Fulfilled v) st
              (wf_run tr0) Hp Hcur) as (Hd & _).
  fold r st2 st3 in Hd.
  eexists. split; [exact Hd|]. simpl.
  do 4 (split; [done|]). split; [|split].
  - intros H. by rewrite (proj2 (Z.ltb_ge _ _) H).
  - intros H. rewrite (proj2 (Z.ltb_lt _ _) H). split; [done|].
    intros now'. apply isFresh_true_iff. eexists. split; [exact Hd|]. simpl.
    rewrite (proj2 (Z.ltb_lt _ _) H). repeat split. by left.
  - by intros ->.
Qed.

(** *** Setting a value by hand *)

(** What [set] installs: a new settled object whose [key] is the stored
    entry's key when the group already has an entry, and the requested key
    only when it has none. *)
Lemma set_installs now g k v valueTtl st :
  let vttl := default (ttl options) valueTtl in
  let st' := set isNull options now (g, k) v valueTtl st in
  cache_get st' g =
    Some {| addr := next_addr st;
            key := from_option key k (cache_get st g);
            promise := length (promises st);
            settled := true;
            value := v;
            expireAt := if (vttl <? 0)%Z then vttl else (now + vttl)%Z;
            extra := cache_get st g ≫= extra |}
  /\ promises st' = promises st ++ [settled_promise_of isNull v]
  /\ invocations st' = invocations st.
Proof.
  intros vttl st'. split; [|done]. unfold cache_get. simpl.
  apply lookup_insert_eq.
Qed.

(** C10.  [set(value)] on a context, without a ttl, is the internal [set]
    with ttl [-1]: the entry it installs has [expireAt = -1] whatever the
    configured ttl.  The internal [set] without a ttl uses the configured
    one: [now + ttl] when it is not negative. *)
Theorem context_set_defaults_to_never_expire g k args now v st :
  let ctx := getContext isNull options (g, k) args in
  ctx_set ctx now v None st = set isNull options now (g, k) (Some v) (Some (-1)%Z) st
  /\ (exists d, cache_get (ctx_set ctx now v None st) g = Some d
        /\ expireAt d = (-1)%Z /\ settled d = true /\ value d = Some v)
  /\ (exists d, cache_get (set isNull options now (g, k) (Some v) None st) g = Some d
        /\ expireAt d = (if (ttl options <? 0)%Z then ttl options
                         else (now + ttl options)%Z)
        /\ settled d = true /\ value d = Some v).
Proof.
  intros ctx. split; [done|]. split.
  - eexists. split; [apply (set_installs now g k (Some v) (Some (-1)%Z) st)|done].
  - eexists. split; [apply (set_installs now g k (Some v) None st)|done].
Qed.

(** *** Key resolution *)

(** C9, as the code has it.  A primitive answer of the resolver is used for
    both components and an array answer of two or more elements gives its
    first two; each component is stringified, [undefined] as the empty
    string.  An array of fewer than two elements leaves a component
    [undefined].  The default resolver ignores its arguments and yields the
    empty group and key.  The facade runs its operation on whatever array
    was resolved; a consumer of key tuples therefore runs on the resolved
    pair whenever both components are bound. *)
Theorem resolveKey_key_tuple (resolver' : T -> ResolverResult Num) args :
  bind_keys (resolveKey numberToString resolver' args) =
    match resolver' args with
    | RPrimitive k =>
        Some (stringify numberToString k, stringify numberToString k)
    | RArray (g :: k :: _) =>
        Some (stringify numberToString g, stringify numberToString k)
    | RArray _ => None
    end
  /\ stringify numberToString KUndefined = ""%string
  /\ (forall s, stringify numberToString (KString s) = s)
  /\ (forall n, stringify numberToString (KNumber n) = numberToString n)
  /\ resolveKey numberToString (resolver (merge_options None)) args
     = [""%string; ""%string]
  /\ bind_keys (resolveKey numberToString (resolver (merge_options None)) args)
     = Some (""%string, ""%string)
  /\ destructure (resolveKey numberToString resolver' args) =
       match resolver' args with
       | RPrimitive k =>
           (Some (stringify numberToString k), Some (stringify numberToString k))
       | RArray ks =>
           (stringify numberToString <$> ks !! 0%nat,
            stringify numberToString <$> ks !! 1%nat)
       end
  /\ (forall (V : Type) (keyFn : list string -> T -> V),
        withArgs options numberToString keyFn args =
          keyFn (match resolver options args with
                 | RPrimitive k =>
                     [stringify numberToString k; stringify numberToString k]
                 | RArray ks => map (stringify numberToString) ks
                 end) args)
  /\ (forall (V : Type) (keyFn : list string -> T -> V) typed ks,
        consumes keyFn typed ->
        bind_keys (resolveKey numberToString (resolver options) args) = Some ks ->
        withArgs options numberToString keyFn args = typed ks args).
Proof.
  assert (Hb : forall r : T -> ResolverResult Num,
            bind_keys (resolveKey numberToString r args) =
              match r args with
              | RPrimitive k =>
                  Some (stringify numberToString k, stringify numberToString k)
              | RArray (g :: k :: _) =>
                  Some (stringify numberToString g, stringify numberToString k)
              | RArray _ => None
              end).
  { intros r. unfold resolveKey, bind_keys, destructure.
    destruct (r args) as [k0|[|g0 [|k0 rest]]]; done. }
  split; [apply Hb|]. do 5 (split; [done|]).
  split; [|split].
  - unfold resolveKey, destructure.
    destruct (resolver' args) as [k0|[|g0 [|k0 rest]]]; done.
  - intros V keyFn. unfold withArgs, resolveKey.
    by destruct (resolver options args).
  - intros V keyFn typed ks Hc Hk. unfold withArgs.
    unfold bind_keys, destructure in Hk.
    destruct (resolveKey numberToString (resolver options) args)
      as [|g0 [|k0 rest]]; try discriminate Hk.
    injection Hk as <-. apply Hc.
Qed.

End Properties.

(** ** Further properties *)

Section FurtherProperties.

Context {T U Extra Num : Type}.
Variable isNull : U -> bool.
Variable options : ICacheOptions T Num.

Implicit Types (st : State T U Extra) (d cachedData : ICacheData U Extra).
Implicit Types (ks : ICacheKeyTuple) (now : Z) (args : T).

(** *** Removing entries *)

(** X1.  After [delete] on a group, every read on that group, under any
    key, answers as for a group never loaded, and the next call on it
    invokes the producer; the entries of the other groups, the promises
    and the invocation log are as before. *)
Theorem delete_forgets_group g k st :
  let st' := delete_ (g, k) st in
  (forall k' now,
     get options now (g, k') st' = None
     /\ isFresh now (g, k') st' = false
     /\ isSettled (g, k') st' = false
     /\ forall args,
          call now (g, k') args st' = reload (g, k') args st'
          /\ invocations (call now (g, k') args st').1 = invocations st ++ [args])
  /\ (forall g', g' <> g -> cache_get st' g' = cache_get st g')
  /\ promises st' = promises st
  /\ invocations st' = invocations st
  /\ handlers st' = handlers st.
Proof.
  intros st'.
  assert (Hg : cache_get st' g = None) by apply (cache_get_set_eq st g None).
  split; [|split; [|done]].
  - intros k' now.
    assert (Hf : isFresh now (g, k') st' = false) by (unfold isFresh; by rewrite Hg).
    unfold get, isSettled. rewrite Hg.
    do 3 (split; [done|]). intros args.
    rewrite (call_not_fresh now (g, k') args st' Hf).
    split; [done|]. by rewrite reload_invocations.
  - intros g' Hne. by apply cache_get_set_ne.
Qed.

(** X2.  After [clear], every group reads as never loaded under every key
    and the next call on any key tuple invokes the producer; promises,
    registered callbacks and the invocation log are untouched, and object
    addresses are not reused. *)
Theorem clear_forgets_everything st :
  let st' := clear st in
  (forall g k now,
     cache_get st' g = None
     /\ get options now (g, k) st' = None
     /\ isFresh now (g, k) st' = false
     /\ isSettled (g, k) st' = false
     /\ forall args,
          call now (g, k) args st' = reload (g, k) args st'
          /\ invocations (call now (g, k) args st').1 = invocations st ++ [args])
  /\ promises st' = promises st
  /\ invocations st' = invocations st
  /\ handlers st' = handlers st
  /\ next_addr st' = next_addr st.
Proof.
  intros st'. split; [|done].
  intros g k now.
  assert (Hg : cache_get st' g = None) by apply cache_get_clear.
  assert (Hf : isFresh now (g, k) st' = false) by (unfold isFresh; by rewrite Hg).
  split; [done|]. unfold get, isSettled. rewrite Hg.
  do 3 (split; [done|]). intros args.
  rewrite (call_not_fresh now (g, k) args st' Hf).
  split; [done|]. by rewrite reload_invocations.
Qed.

(** *** Setting a value by hand, where it works *)

(** X3.  When the group has no entry, or has one under the requested key,
    [set] makes the value readable at once: the key tuple is settled,
    [get] returns the value whenever it may return at all, no producer
    invocation is logged, and (for a clock reading that is not negative)
    the entry is fresh for ever under a negative ttl and otherwise exactly
    until [ttl] milliseconds after the [set], so a ttl of [0] is stale
    from the start. *)
Theorem set_then_read g k v valueTtl now st :
  (forall d, cache_get st g = Some d -> key d = k) ->
  (0 <= now)%Z ->
  let vttl := default (ttl options) valueTtl in
  let st' := set isNull options now (g, k) v valueTtl st in
  isSettled (g, k) st' = true
  /\ (forall now', mustRevalidate options = false \/ isFresh now' (g, k) st' = true ->
        get options now' (g, k) st' = v)
  /\ ((vttl < 0)%Z -> forall now', isFresh now' (g, k) st' = true)
  /\ ((0 <= vttl)%Z ->
      forall now', isFresh now' (g, k) st' = true <-> (now' < now + vttl)%Z)
  /\ invocations st' = invocations st.
Proof.
  intros Hkey Hnow vttl st'.
  destruct (set_installs isNull options now g k v valueTtl st) as (Hd & _ & Hinv).
  fold vttl st' in Hd, Hinv.
  assert (Hk : from_option key k (cache_get st g) = k).
  { destruct (cache_get st g) as [d|] eqn:Ho; [|done]. simpl. by apply Hkey. }
  rewrite Hk in Hd.
  split; [unfold isSettled; rewrite Hd; simpl; by rewrite bool_decide_eq_true_2|].
  split; [|split; [|split; [|done]]].
  - intros now' H. unfold get. rewrite Hd.
    destruct H as [-> | ->]; by rewrite ?orb_true_r.
  - intros Hneg now'. apply isFresh_true_iff. eexists. split; [exact Hd|]. simpl.
    rewrite (proj2 (Z.ltb_lt _ _) Hneg). repeat split. by left.
  - intros Hpos now'. rewrite isFresh_true_iff. rewrite Hd.
    assert (Hlt : (vttl <? 0)%Z = false) by (apply Z.ltb_ge; lia).
    split.
    + intros (d & [= <-] & _ & _ & He). simpl in He. rewrite Hlt in He. lia.
    + intros H. eexists. split; [done|]. simpl. rewrite Hlt.
      repeat split. by right.
Qed.

(** X4.  Under the same condition, a call made while the entry [set]
    installed is fresh is served from it: the state does not change, no
    producer invocation is logged, and the promise returned is the one
    [set] built, already fulfilled with the value, or already rejected
    when the value is [null] or missing. *)
Theorem set_then_call g k v valueTtl now now' args st :
  (forall d, cache_get st g = Some d -> key d = k) ->
  let st' := set isNull options now (g, k) v valueTtl st in
  isFresh now' (g, k) st' = true ->
  call now' (g, k) args st' = (st', length (promises st))
  /\ promises st' !! length (promises st) =
       Some (match v with
             | Some u => if isNull u then Settled Rejected else Settled (Fulfilled u)
             | None => Settled Rejected
             end)
  /\ invocations (call now' (g, k) args st').1 = invocations st.
Proof.
  intros Hkey st' Hf.
  destruct (set_installs isNull options now g k v valueTtl st) as (Hd & Hp & Hinv).
  fold st' in Hd, Hp, Hinv.
  rewrite (call_fresh now' (g, k) args st' _ Hd Hf). simpl promise.
  split; [done|]. split; [|done].
  rewrite Hp. by rewrite lookup_app_r, Nat.sub_diag.
Qed.

(** *** What stays readable across a reload *)

(** X5.  [reload] does not delete the old value: while the new promise is
    pending the key tuple is neither fresh nor settled, yet with
    [mustRevalidate] off [get] keeps returning the value the group held
    before, also when that value was loaded under another key; with
    [mustRevalidate] on [get] returns nothing until the settlement. *)
Theorem reload_keeps_old_value_readable g k args st :
  let st' := (reload (g, k) args st).1 in
  (forall now k', isFresh now (g, k') st' = false /\ isSettled (g, k') st' = false)
  /\ (mustRevalidate options = false ->
      forall now k', get options now (g, k') st' = cache_get st g ≫= value)
  /\ (mustRevalidate options = true ->
      forall now k', get options now (g, k') st' = None).
Proof.
  intros st'.
  pose proof (reload_cache_get g k args st) as Hd. fold st' in Hd.
  assert (Hf : forall now k', isFresh now (g, k') st' = false).
  { intros now k'. by eapply isFresh_pending. }
  split; [|split].
  - intros now k'. split; [apply Hf|].
    unfold isSettled. rewrite Hd. simpl. by rewrite andb_false_r.
  - intros Hm now k'. unfold get. rewrite Hd, Hm. done.
  - intros Hm now k'. unfold get. rewrite Hd, Hm, Hf. done.
Qed.

(** X6.  After the fulfilment of a reload whose entry is still the group's
    entry, the key tuple is settled and [get] returns the fulfilled value:
    at every clock reading when [mustRevalidate] is off, and exactly while
    the entry is fresh when it is on. *)
Theorem fulfilled_value_is_read tr0 g k args tr now v :
  let st : State T U Extra := run isNull options tr0 init in
  let r := reload (g, k) args st in
  let st2 := run isNull options tr r.1 in
  let st3 := settle options now r.2 (Fulfilled v) st2 in
  promises st2 !! r.2 = Some Pending ->
  cache_get st2 g = cache_get r.1 g ->
  isSettled (g, k) st3 = true
  /\ (mustRevalidate options = false ->
      forall now', get options now' (g, k) st3 = Some v)
  /\ (mustRevalidate options = true ->
      forall now', get options now' (g, k) st3
                   = if isFresh now' (g, k) st3 then Some v else None).
Proof.
  intros st r st2 st3 Hp Hcur.
  destruct (settlement_writes_back isNull options g k args tr now (Fulfilled v) st
              (wf_run isNull options tr0) Hp Hcur) as (Hd & _).
  fold r st2 st3 in Hd.
  split; [unfold isSettled; rewrite Hd; simpl; by rewrite bool_decide_eq_true_2|].
  split; intros Hm now'; unfold get; rewrite Hd, Hm; simpl; [done|].
  by destruct (isFresh now' (g, k) st3).
Qed.

(** X7.  A rejection wipes the value the group held: after the rejection
    of a reload whose entry is still the group's entry, [get] returns
    nothing under any key and at any clock reading, whatever
    [mustRevalidate] is and whatever value was readable before and during
    the reload. *)
Theorem rejection_drops_old_value tr0 g k args tr now :
  let st : State T U Extra := run isNull options tr0 init in
  let r := reload (g, k) args st in
  let st2 := run isNull options tr r.1 in
  let st3 := settle options now r.2 Rejected st2 in
  promises st2 !! r.2 = Some Pending ->
  cache_get st2 g = cache_get r.1 g ->
  forall now' k', get options now' (g, k') st3 = None.
Proof.
  intros st r st2 st3 Hp Hcur now' k'.
  destruct (settlement_writes_back isNull options g k args tr now Rejected st
              (wf_run isNull options tr0) Hp Hcur) as (Hd & _).
  fold r st2 st3 in Hd.
  unfold get. rewrite Hd. cbn [value].
  by destruct (negb (mustRevalidate options) || isFresh now' (g, k') st3).
Qed.

(** *** Groups are independent *)

Lemma resolve_other_group g g' cachedData error v now st :
  g' <> g ->
  cache_get (resolve options g cachedData error v now st) g' = cache_get st g'.
Proof.
  intros Hne. unfold resolve. destruct (not_identical _ _); [done|].
  simpl. by rewrite cache_get_set_ne.
Qed.

(** X8.  An operation on a key tuple reads and writes the slot of its own
    group only: whatever [call], [reload], [set] or [delete] does on group
    [g], every other group holds afterwards the very entry it held. *)
Theorem operations_touch_one_group now e g g' st :
  event_group e = Some g -> g' <> g ->
  cache_get (step isNull options now e st) g' = cache_get st g'.
Proof.
  intros He Hne.
  destruct e as [[g0 k0] a|[g0 k0] a|[g0 k0] v t|[g0 k0]| |p o];
    try discriminate He; injection He as ->; cbn [step].
  - unfold call. cbn [fst]. destruct (cache_get st g) as [d|]; [|by apply reload_cache_get_ne].
    destruct (isFresh now (g, k0) st); [done|by apply reload_cache_get_ne].
  - by apply reload_cache_get_ne.
  - unfold cache_get. simpl. by apply lookup_insert_ne.
  - by apply cache_get_set_ne.
Qed.

(** X9.  A settlement writes only to the groups of the callbacks
    registered on the settling promise: a group none of them was
    registered for keeps its entry, and so does every group when the
    promise is not pending. *)
Theorem settlement_touches_only_its_groups now p o g' st :
  (forall h, h ∈ handlers_on p (handlers st) -> h_group h <> g') ->
  cache_get (settle options now p o st) g' = cache_get st g'.
Proof.
  intros Hall. unfold settle.
  destruct (promises st !! p) as [[|o']|]; try done.
  change (cache_get st g') with (cache_get (settling p o st) g').
  generalize (settling p o st).
  induction (handlers_on p (handlers st)) as [|h hs IH]; intros st0; [done|].
  simpl. rewrite IH.
  - destruct o; simpl; apply resolve_other_group; intros ->;
      by apply (Hall h); [left|].
  - intros h' Hin. apply Hall. by right.
Qed.

(** *** When the producer runs *)

Lemma run_handlers_invocations now o hs st :
  invocations (foldl (fun s h => run_handler options now o h s) st hs) = invocations st.
Proof.
  revert st. induction hs as [|h hs IH]; intros st; [done|].
  simpl. by rewrite IH, run_handler_invocations.
Qed.

(** X10.  The producer is invoked by [reload], and by [call] exactly when
    the key tuple is not fresh, once each time and with the arguments of
    that call; [set], [delete], [clear] and settlements (also of a
    rejection) never invoke it. *)
Theorem producer_invocations now e st :
  invocations (step isNull options now e st)
  = invocations st ++ event_invocations now e st.
Proof.
  destruct e as [ks a|ks a|ks v t|ks| |p o]; cbn [step event_invocations].
  - destruct (isFresh now ks st) eqn:Hf.
    + destruct ks as [g k].
      destruct (proj1 (isFresh_true_iff now g k st) Hf) as (d & Hd & _).
      rewrite (call_fresh now (g, k) a st d Hd Hf). by rewrite app_nil_r.
    + rewrite (call_not_fresh now ks a st Hf). apply reload_invocations.
  - apply reload_invocations.
  - destruct ks. by rewrite app_nil_r.
  - by rewrite app_nil_r.
  - by rewrite app_nil_r.
  - rewrite app_nil_r. unfold settle.
    destruct (promises st !! p) as [[|o']|]; try done.
    by rewrite run_handlers_invocations.
Qed.

(** X11.  Whichever branch [call] takes, the promise it returns is the one
    stored, after the call, in the entry of the group, and that entry is
    under the key of the call. *)
Theorem call_returns_stored_promise now g k args st :
  exists d, cache_get (call now (g, k) args st).1 g = Some d
    /\ key d = k
    /\ promise d = (call now (g, k) args st).2.
Proof.
  destruct (isFresh now (g, k) st) eqn:Hf.
  - destruct (proj1 (isFresh_true_iff now g k st) Hf) as (d & Hd & Hk & _).
    exists d. by rewrite (call_fresh now (g, k) args st d Hd Hf).
  - rewrite (call_not_fresh now (g, k) args st Hf).
    eexists. split; [apply reload_cache_get|]. by rewrite reload_promise.
Qed.

(** *** Unsettled entries are always on their way *)

Lemma handlers_on_absent p (hs : list (nat * Handler U Extra)) :
  p ∉ hs.*1 -> handlers_on p hs = [].
Proof.
  intros Hp. apply handlers_on_none. intros p' h Hin ->.
  apply Hp. by apply (list_elem_of_fmap_2 fst hs (p, h)).
Qed.

Lemma handlers_on_unique p h (hs : list (nat * Handler U Extra)) :
  NoDup hs.*1 -> (p, h) ∈ hs -> handlers_on p hs = [h].
Proof.
  induction hs as [|[q h0] hs IH]; intros Hnd Hin.
  - by apply elem_of_nil in Hin.
  - rewrite fmap_cons in Hnd. apply NoDup_cons in Hnd as [Hq Hnd]. simpl in Hq.
    change ((q, h0) :: hs) with ([(q, h0)] ++ hs). rewrite handlers_on_app.
    apply elem_of_cons in Hin as [[= <- <-]|Hin].
    + rewrite (handlers_on_absent p hs Hq), app_nil_r.
      unfold handlers_on. rewrite filter_cons. simpl.
      by destruct (decide (p = p)).
    + rewrite (IH Hnd Hin).
      rewrite (handlers_on_none p [(q, h0)]); [done|].
      intros p' h' Hin' ->. apply list_elem_of_singleton in Hin'.
      injection Hin' as -> ->. apply Hq.
      by apply (list_elem_of_fmap_2 fst hs (q, h)).
Qed.

Lemma handlers_off_NoDup p (hs : list (nat * Handler U Extra)) :
  NoDup hs.*1 -> NoDup (handlers_off p hs).*1.
Proof.
  unfold handlers_off. induction hs as [|[q h0] hs IH]; intros Hnd; [done|].
  rewrite fmap_cons in Hnd. apply NoDup_cons in Hnd as [Hq Hnd].
  rewrite filter_cons. destruct (decide ((q, h0).1 <> p)); [|by apply IH].
  rewrite fmap_cons. apply NoDup_cons. split; [|by apply IH].
  intros Hin. apply Hq. apply list_elem_of_fmap in Hin as ([q' h'] & -> & Hin).
  apply list_elem_of_filter in Hin as [_ Hin].
  by apply (list_elem_of_fmap_2 fst hs (q', h')).
Qed.

Lemma tracked_init : tracked (@init T U Extra).
Proof.
  split; [apply NoDup_nil_2|].
  intros g d Hd. unfold cache_get in Hd. simpl in Hd.
  by rewrite lookup_empty in Hd.
Qed.

(** A write of a settled entry that registers nothing and only appends
    promises keeps unsettled entries tracked. *)
Lemma tracked_settled_write st st' g d ps :
  tracked st ->
  cache st' = <[g := d]> (cache st) ->
  settled d = true ->
  promises st' = promises st ++ ps ->
  handlers st' = handlers st ->
  tracked st'.
Proof.
  intros [Hnd Htr] Hc Hs Hp Hh. split; [by rewrite Hh|].
  intros g' d' Hd' Hs'. unfold cache_get in Hd'. rewrite Hc in Hd'.
  destruct (decide (g = g')) as [<-|Hne].
  - rewrite lookup_insert_eq in Hd'. injection Hd' as <-. congruence.
  - rewrite lookup_insert_ne in Hd' by done.
    destruct (Htr g' d' Hd' Hs') as (He & Hpd & Hin).
    split; [done|]. rewrite Hp, Hh. split; [|done].
    rewrite lookup_app_l; [done|]. by eapply lookup_lt_Some.
Qed.

Lemma tracked_remove st st' :
  tracked st ->
  (forall g d, cache st' !! g = Some d -> cache st !! g = Some d) ->
  promises st' = promises st ->
  handlers st' = handlers st ->
  tracked st'.
Proof.
  intros [Hnd Htr] Hc Hp Hh. split; [by rewrite Hh|].
  intros g d Hd Hs. rewrite Hp, Hh. apply Htr; [|done]. by apply Hc.
Qed.

Lemma tracked_reload ks args st : wf st -> tracked st -> tracked (reload ks args st).1.
Proof.
  destruct ks as [g k]. intros [_ Hwf] [Hnd Htr]. split.
  - simpl. rewrite fmap_app. apply NoDup_app. split; [done|].
    split; [|apply NoDup_singleton].
    intros p Hp Hp'. apply list_elem_of_singleton in Hp'. simpl in Hp'. subst p.
    apply list_elem_of_fmap in Hp as ([p h] & Heq & Hin). simpl in Heq. subst p.
    destruct (Hwf _ _ Hin). lia.
  - intros g' d Hd Hs. destruct (decide (g = g')) as [<-|Hne].
    + rewrite reload_cache_get in Hd. injection Hd as <-. simpl.
      split; [done|]. split.
      * by rewrite lookup_app_r, Nat.sub_diag.
      * apply elem_of_app. right. by apply list_elem_of_singleton.
    + rewrite reload_cache_get_ne in Hd by done.
      destruct (Htr g' d Hd Hs) as (He & Hpd & Hin).
      split; [done|]. simpl. split.
      * rewrite lookup_app_l; [done|]. by eapply lookup_lt_Some.
      * apply elem_of_app. by left.
Qed.

Lemma tracked_settle now p o st : tracked st -> tracked (settle options now p o st).
Proof.
  intros [Hnd Htr]. unfold settle.
  destruct (promises st !! p) as [[|o']|] eqn:Hp; try done.
  assert (Hkeep : forall g d, cache_get st g = Some d -> settled d = false ->
            promise d <> p ->
            expireAt d = (-1)%Z
            /\ <[p := Settled o]> (promises st) !! promise d = Some Pending
            /\ (promise d, {| h_group := g; h_data := d |}) ∈ handlers_off p (handlers st)).
  { intros g d Hd Hs Hne. destruct (Htr g d Hd Hs) as (He & Hpd & Hin).
    split; [done|]. split.
    - by rewrite list_lookup_insert_ne.
    - unfold handlers_off. apply list_elem_of_filter. by split. }
  destruct (handlers_on p (handlers st)) as [|h hs] eqn:Hon.
  - simpl. split; [by apply handlers_off_NoDup|].
    intros g d Hd Hs. apply (Hkeep g d Hd Hs). intros Heq.
    destruct (Htr g d Hd Hs) as (_ & _ & Hin). rewrite Heq in Hin.
    by rewrite (handlers_on_unique _ _ _ Hnd Hin) in Hon.
  - assert (Hex : exists h0, (p, h0) ∈ handlers st).
    { assert (Hin : h ∈ handlers_on p (handlers st)) by (rewrite Hon; left).
      unfold handlers_on in Hin.
      apply list_elem_of_fmap in Hin as ([q h0] & _ & Hin).
      apply list_elem_of_filter in Hin as [Hq Hin]. simpl in Hq. subst q.
      by exists h0. }
    destruct Hex as [h0 Hin0].
    pose proof (handlers_on_unique _ _ _ Hnd Hin0) as Hone.
    rewrite Hon in Hone. injection Hone as -> ->.
    assert (Hh : forall g d, cache_get st g = Some d -> settled d = false ->
              promise d = p -> h0 = {| h_group := g; h_data := d |}).
    { intros g d Hd Hs Heq. destruct (Htr g d Hd Hs) as (_ & _ & Hin).
      rewrite Heq in Hin. pose proof (handlers_on_unique _ _ _ Hnd Hin) as Hone.
      rewrite Hon in Hone. by injection Hone. }
    simpl.
    assert (Hres : forall error v,
              tracked (resolve options (h_group h0) (h_data h0) error v now
                         (settling p o st))).
    { intros error v. unfold resolve.
      destruct (not_identical _ _) eqn:Hni.
      - split; [by apply handlers_off_NoDup|].
        intros g d Hd Hs. apply (Hkeep g d Hd Hs). intros Heq.
        rewrite (Hh g d Hd Hs Heq) in Hni. cbn [h_group h_data] in Hni.
        by rewrite Hd, not_identical_self in Hni.
      - split; [by apply handlers_off_NoDup|].
        intros g d Hd Hs. simpl in Hd.
        destruct (decide (h_group h0 = g)) as [<-|Hne].
        + rewrite cache_get_set_eq in Hd. injection Hd as <-. done.
        + rewrite cache_get_set_ne in Hd by done.
          apply (Hkeep g d Hd Hs). intros Heq.
          apply Hne. by rewrite (Hh g d Hd Hs Heq). }
    destruct o; apply Hres.
Qed.

Lemma tracked_step now e st : wf st -> tracked st -> tracked (step isNull options now e st).
Proof.
  intros Hwf Ht. destruct e as [ks a|ks a|[g k] v t|ks| |p o]; cbn [step].
  - unfold call. destruct (cache_get st ks.1); [|by apply tracked_reload].
    destruct (isFresh now ks st); [done|by apply tracked_reload].
  - by apply tracked_reload.
  - eapply (tracked_settled_write st _ g _ [settled_promise_of isNull v]);
      [done|..]; simpl; done.
  - eapply tracked_remove; [done|..]; simpl; try done.
    intros g d. destruct (decide (ks.1 = g)) as [->|Hne].
    + by rewrite lookup_delete_eq.
    + by rewrite lookup_delete_ne.
  - eapply tracked_remove; [done|..]; simpl; done.
  - by apply tracked_settle.
Qed.

Lemma tracked_run tr st : wf st -> tracked st -> tracked (run isNull options tr st).
Proof.
  revert st. induction tr as [|[now e] tr IH]; intros st Hwf Ht; [done|].
  simpl. apply IH.
  - eapply wf_later; [done|apply later_step].
  - by apply tracked_step.
Qed.

(** X12.  In every state a history reaches, an entry that is not settled
    is never stuck: it carries the pending sentinel [-1], its promise is
    still pending, and exactly its own callback is registered on that
    promise.  So whenever that promise settles, the entry is written back
    settled, under the same key and promise, with the fulfilled value or,
    on rejection, with none. *)
Theorem unsettled_entry_settles tr g d :
  let st : State T U Extra := run isNull options tr init in
  cache_get st g = Some d ->
  settled d = false ->
  expireAt d = (-1)%Z
  /\ promises st !! promise d = Some Pending
  /\ handlers_on (promise d) (handlers st) = [{| h_group := g; h_data := d |}]
  /\ forall now o,
       let st' := settle options now (promise d) o st in
       isSettled (g, key d) st' = true
       /\ promises st' !! promise d = Some (Settled o)
       /\ exists d', cache_get st' g = Some d'
            /\ settled d' = true /\ key d' = key d /\ promise d' = promise d
            /\ value d' = match o with Fulfilled v => Some v | Rejected => None end.
Proof.
  intros st Hd Hs.
  destruct (tracked_run tr init (wf_init (T := T) (U := U) (Extra := Extra)) tracked_init)
    as [Hnd Htr].
  fold st in Hnd, Htr.
  destruct (Htr g d Hd Hs) as (He & Hp & Hin).
  pose proof (handlers_on_unique _ _ _ Hnd Hin) as Hon.
  split; [done|]. split; [done|]. split; [done|].
  intros now o st'. subst st'. unfold settle. rewrite Hp, Hon. simpl.
  assert (Hcur : cache_get (settling (promise d) o st) g = Some d) by done.
  pose proof (run_handler_current options now o g d _ Hcur) as Hd'.
  split; [unfold isSettled; rewrite Hd'; simpl; by rewrite bool_decide_eq_true_2|].
  split.
  - rewrite run_handler_promises. simpl.
    apply list_lookup_insert_eq. by eapply lookup_lt_Some.
  - eexists. split; [exact Hd'|done].
Qed.

(** *** Two reloads in flight *)

(** Settling the promise of a superseded reload changes neither the store
    nor the allocator nor any other promise. *)
Lemma settle_superseded g k args now_e e now o st st' :
  wf st ->
  supersedes g e = true ->
  later (step isNull options now_e e (reload (g, k) args st).1) st' ->
  cache (settle options now (reload (g, k) args st).2 o st') = cache st'
  /\ next_addr (settle options now (reload (g, k) args st).2 o st') = next_addr st'
  /\ forall p', p' <> (reload (g, k) args st).2 ->
       promises (settle options now (reload (g, k) args st).2 o st') !! p'
       = promises st' !! p'.
Proof.
  intros Hwf Hs L.
  destruct (promises st' !! (reload (g, k) args st).2) as [[|o']|] eqn:Hp;
    [|by rewrite settle_not_pending; [|rewrite Hp]..].
  assert (L' : later (reload (g, k) args st).1 st').
  { eapply later_trans; [apply (later_step isNull options)|exact L]. }
  rewrite (settle_of_reload_later options g k args now o _ st st' Hwf
             (reload_cache_get g k args st) L' Hp).
  assert (Hni : not_identical
            (cache_get (settling (reload (g, k) args st).2 o st') g)
            {| addr := next_addr st; key := k; promise := length (promises st);
               settled := false; value := cache_get st g ≫= value;
               expireAt := (-1)%Z; extra := cache_get st g ≫= extra |} = true).
  { apply (superseded_not_identical (next_addr st)); [|done].
    pose proof (superseded_later _ _ _ (superseded_after isNull options now_e e g k
                  args st Hwf Hs) L) as [Ha Hc].
    split; [done|]. intros g' d Hd. by apply (Hc g'). }
  assert (Hrun : run_handler options now o
                   {| h_group := g;
                      h_data := {| addr := next_addr st; key := k;
                                   promise := length (promises st);
                                   settled := false; value := cache_get st g ≫= value;
                                   expireAt := (-1)%Z;
                                   extra := cache_get st g ≫= extra |} |}
                   (settling (reload (g, k) args st).2 o st')
                 = settling (reload (g, k) args st).2 o st').
  { destruct o; simpl; by rewrite resolve_superseded. }
  rewrite Hrun. simpl. split; [done|]. split; [done|].
  intros p' Hne. by rewrite list_lookup_insert_ne.
Qed.

(** X13.  When a group is reloaded twice before either promise settles,
    the entry that ends up in the store is the one of the second reload,
    written back from the second promise's outcome at the second
    promise's settlement time, whichever of the two promises settles
    first and whatever the first one brings. *)
Theorem last_reload_wins tr0 g k1 k2 args1 args2 now1 now2 o1 o2 :
  let st : State T U Extra := run isNull options tr0 init in
  let r1 := reload (g, k1) args1 st in
  let r2 := reload (g, k2) args2 r1.1 in
  let written :=
    {| addr := next_addr r2.1;
       key := k2;
       promise := r2.2;
       settled := true;
       value := match o2 with Fulfilled v => Some v | Rejected => None end;
       expireAt := match o2 with
                   | Rejected => 0%Z
                   | Fulfilled _ =>
                       if (ttl options <? 0)%Z then ttl options
                       else (now2 + ttl options)%Z
                   end;
       extra := cache_get st g ≫= extra |} in
  cache_get (settle options now1 r1.2 o1 (settle options now2 r2.2 o2 r2.1)) g
    = Some written
  /\ cache_get (settle options now2 r2.2 o2 (settle options now1 r1.2 o1 r2.1)) g
    = Some written.
Proof.
  intros st r1 r2 written. subst written r2.
  pose proof (wf_run isNull options tr0 : wf st) as Hwf.
  assert (Hwf1 : wf r1.1) by (eapply wf_later; [done|apply later_reload]).
  assert (Hp2 : promises (reload (g, k2) args2 r1.1).1
                  !! (reload (g, k2) args2 r1.1).2 = Some Pending).
  { rewrite reload_promise, reload_promises.
    by rewrite lookup_app_r, Nat.sub_diag. }
  assert (Hne : (reload (g, k2) args2 r1.1).2 <> r1.2).
  { subst r1. rewrite !reload_promise, reload_promises, length_app. simpl. lia. }
  assert (Hsup : supersedes g (EReload (g, k2) args2 : Event T U) = true).
  { simpl. by apply bool_decide_eq_true_2. }
  assert (Hextra : cache_get r1.1 g ≫= extra = cache_get st g ≫= extra).
  { subst r1. by rewrite reload_cache_get. }
  split.
  - destruct (settlement_writes_back isNull options g k2 args2 [] now2 o2 r1.1
                Hwf1 Hp2 eq_refl) as (Hd & _).
    cbn [run foldl] in Hd. rewrite Hextra in Hd.
    destruct (settle_superseded g k1 args1 0%Z (EReload (g, k2) args2) now1 o1 st
                (settle options now2 (reload (g, k2) args2 r1.1).2 o2
                   (reload (g, k2) args2 r1.1).1) Hwf Hsup
                (later_settle options now2 _ o2 _)) as (Hc & _).
    fold r1 in Hc. unfold cache_get. rewrite Hc. exact Hd.
  - destruct (settle_superseded g k1 args1 0%Z (EReload (g, k2) args2) now1 o1 st
                (reload (g, k2) args2 r1.1).1 Hwf Hsup (later_refl _)) as (Hc & Ha & Hp).
    fold r1 in Hc, Ha, Hp.
    rewrite (settle_of_reload_later options g k2 args2 now2 o2 _ r1.1
               (settle options now1 r1.2 o1 (reload (g, k2) args2 r1.1).1) Hwf1
               (reload_cache_get g k2 args2 r1.1)
               (later_settle options now1 r1.2 o1 _)).
    + erewrite run_handler_current.
      * unfold settling. cbn [next_addr key promise extra].
        by rewrite Ha, Hextra, reload_promise.
      * unfold cache_get, settling. cbn [cache]. rewrite Hc.
        apply reload_cache_get.
    + by rewrite Hp.
Qed.

(** *** Freshness over time *)

(** X16.  In a given state freshness only decays with the clock: a key
    tuple fresh at one reading is fresh at every earlier one, it is then
    settled, and [get] returns the value of its entry whether or not
    [mustRevalidate] is set. *)
Theorem freshness_decays now g k st :
  isFresh now (g, k) st = true ->
  isSettled (g, k) st = true
  /\ (forall now', (now' <= now)%Z -> isFresh now' (g, k) st = true)
  /\ exists d, cache_get st g = Some d /\ get options now (g, k) st = value d.
Proof.
  intros Hf. pose proof Hf as Hf'.
  apply isFresh_true_iff in Hf' as (d & Hd & Hk & Hs & He).
  split; [unfold isSettled; rewrite Hd, Hs; by rewrite bool_decide_eq_true_2|].
  split.
  - intros now' Hle. apply isFresh_true_iff. exists d. repeat split; try done. lia.
  - exists d. split; [done|]. unfold get. by rewrite Hd, Hf, orb_true_r.
Qed.

(** *** A manual [set] while a load is in flight *)

(** X17.  A [set] on a group whose reload is still in flight wins over the
    load: whenever and however the producer's promise settles afterwards,
    the group keeps the entry [set] installed, which carries the set value
    and ttl, is settled, and has the key of the pending entry it replaced. *)
Theorem set_wins_over_pending_load tr0 g k k' args v valueTtl now tr now' o :
  let st : State T U Extra := run isNull options tr0 init in
  let r := reload (g, k) args st in
  let st2 := set isNull options now (g, k') v valueTtl r.1 in
  let st3 := settle options now' r.2 o (run isNull options tr st2) in
  let vttl := default (ttl options) valueTtl in
  cache_get st2 g =
    Some {| addr := next_addr r.1;
            key := k;
            promise := length (promises r.1);
            settled := true;
            value := v;
            expireAt := if (vttl <? 0)%Z then vttl else (now + vttl)%Z;
            extra := cache_get st g ≫= extra |}
  /\ cache st3 = cache (run isNull options tr st2)
  /\ (tr = [] -> forall now'', get options now'' (g, k) st3 = get options now'' (g, k) st2).
Proof.
  intros st r st2 st3 vttl.
  pose proof (wf_run isNull options tr0 : wf st) as Hwf.
  destruct (set_installs isNull options now g k' v valueTtl r.1) as (Hd & _).
  fold st2 vttl in Hd. subst r. rewrite reload_cache_get in Hd. simpl in Hd.
  split; [exact Hd|].
  assert (Hsup : supersedes g (ESet (g, k') v valueTtl : Event T U) = true).
  { simpl. by apply bool_decide_eq_true_2. }
  destruct (settle_superseded g k args now (ESet (g, k') v valueTtl) now' o st
              (run isNull options tr st2) Hwf Hsup
              (later_run isNull options tr _)) as (Hc & _).
  split; [exact Hc|].
  intros -> now''. cbn [run foldl] in Hc.
  unfold get, isFresh, cache_get. subst st3. cbn [run foldl]. by rewrite Hc.
Qed.

(** *** The MobX storage of the README behind the closure *)


End FurtherProperties.

(** *** The registry *)

(** X15.  [clearCache] empties the storage of every function the factory
    has created and removes none of them from the registry: each stays at
    its position with its store cleared, its promises, callbacks and
    invocation log untouched; clearing twice is clearing once, and
    registering a new function commutes with it, since a new function
    starts empty. *)
Theorem clearCache_clears_every_function (cachedFns : list ICachedFunction) :
  length (clearCache cachedFns) = length (getAll cachedFns)
  /\ Forall (fun fn => forall g, cache_get (cf_state fn) g = None) (clearCache cachedFns)
  /\ (forall i, clearCache cachedFns !! i = cf_clear <$> getAll cachedFns !! i)
  /\ Forall (fun fn =>
               promises (cf_state (cf_clear fn)) = promises (cf_state fn)
               /\ handlers (cf_state (cf_clear fn)) = handlers (cf_state fn)
               /\ invocations (cf_state (cf_clear fn)) = invocations (cf_state fn))
       cachedFns
  /\ clearCache (clearCache cachedFns) = clearCache cachedFns
  /\ forall T U Extra,
       clearCache (cacheAsync T U Extra cachedFns)
       = cacheAsync T U Extra (clearCache cachedFns).
Proof.
  unfold clearCache, getAll, cacheAsync.
  split; [apply length_map|]. split; [|split; [|split; [|split]]].
  - induction cachedFns as [|fn fns IH]; constructor; [|done].
    intros g. apply cache_get_clear.
  - intros i. apply list_lookup_fmap.
  - by apply Forall_forall.
  - induction cachedFns as [|fn fns IH]; [done|]. simpl. by rewrite IH.
  - intros T U Extra. by rewrite map_app.
Qed.

(** *** Load once globally *)

Lemma withArgs_default {T Num V : Type} (numberToString : Num -> string)
    (keyFn : list string -> T -> V) (args : T) :
  withArgs (merge_options None) numberToString keyFn args
  = keyFn [""%string; ""%string] args.
Proof. reflexivity. Qed.

(** X18.  With the default options every argument list resolves to the
    empty group and key, so the wrapped function is one slot: once a call
    has loaded it and the producer's promise is fulfilled, every later
    call through the facade, with any arguments and at any clock reading,
    returns that same promise and changes nothing, so the producer is not
    invoked again. *)
Theorem default_options_load_once {T U Extra Num : Type} (isNull : U -> bool)
    (numberToString : Num -> string) tr0 (args : T) now0 tr now v :
  let opts : ICacheOptions T Num := merge_options None in
  let st : State T U Extra := run isNull opts tr0 init in
  let c := call now0 (""%string, ""%string) args st in
  let st2 := run isNull opts tr c.1 in
  let st3 := settle opts now c.2 (Fulfilled v) st2 in
  isFresh now0 (""%string, ""%string) st = false ->
  promises st2 !! c.2 = Some Pending ->
  cache_get st2 ""%string = cache_get c.1 ""%string ->
  (forall keyFn,
     consumes keyFn (fun ks a => call now0 ks a st) ->
     withArgs opts numberToString keyFn args = c)
  /\ invocations c.1 = invocations st ++ [args]
  /\ forall now' (args' : T) keyFn,
       consumes keyFn (fun ks a => call now' ks a st3) ->
       withArgs opts numberToString keyFn args' = (st3, c.2).
Proof.
  intros opts st c st2 st3 Hnf. subst st3 st2 c st opts.
  rewrite (call_not_fresh now0 (""%string, ""%string) args _ Hnf).
  intros Hp Hcur.
  destruct (settlement_writes_back isNull (merge_options None) ""%string ""%string
              args tr now (Fulfilled v) _ (wf_run isNull (merge_options None) tr0)
              Hp Hcur) as (Hd & _).
  split.
  { intros keyFn Hc. rewrite withArgs_default, Hc. by apply call_not_fresh. }
  split; [apply reload_invocations|].
  intros now' args' keyFn Hc. rewrite withArgs_default, Hc.
  pose proof (call_fresh now' (""%string, ""%string) args' _ _ Hd) as Hcf.
  cbn [promise] in Hcf. apply Hcf.
  apply isFresh_true_iff. eexists. split; [exact Hd|]. simpl.
  repeat split. by left.
Qed.

(** ** Instances and counterexamples *)

Local Open Scope string_scope.
Local Open Scope Z_scope.

(** The sample history leaves a settled entry under key [a]. *)
Example demo_loaded_entry :
  cache_get (demo_loaded false (-1)) "g" =
    Some {| addr := 1; key := "a"; promise := 0; settled := true;
            value := Some 7; expireAt := -1; extra := None |}.
Proof. reflexivity. Qed.

(** C1 on the sample: the entry of a reload is replaced by a second reload
    before the first promise settles; the first settlement changes nothing
    in the store and the second one is written back. *)
Lemma superseded_settlement_never_writes_witness :
  let opts := demo_options false (-1) in
  let r1 := reload ("g", "a") 1 demo_init in
  let st' := step never_null opts 1 (EReload ("g", "a") 2) r1.1 in
  cache (settle opts 9 r1.2 (Fulfilled 7) st') = cache st'
  /\ (cache_get (settle opts 9 1%nat (Fulfilled 8) st') "g" ≫= value) = Some 8.
Proof.
  split; [|reflexivity].
  pose proof (superseded_settlement_never_writes (Extra := unit) never_null
                (demo_options false (-1)) [] "g" "a" 1) as H.
  simpl in H. destruct H as (cd & _ & _ & _ & H).
  exact (proj2 (H 1 (EReload ("g", "a") 2) [] false None 9 (Fulfilled 7) eq_refl)).
Defined.

(** C2 on the code, with the default options ("the function is only
    evaluated once"): two invocations with different arguments resolve to
    the same key tuple; the second, issued while the entry of the first is
    still pending, is not served from it but invokes the producer again
    and returns another promise, so the function is evaluated twice and
    the two callers hold different promises. *)
Theorem pending_call_invokes_producer_again :
  let opts : ICacheOptions Z Z := merge_options None in
  let keys1 := resolveKey (pretty : Z -> string) (resolver opts) 1 in
  let keys2 := resolveKey (pretty : Z -> string) (resolver opts) 2 in
  let c1 := call 0 ("", "") 1 demo_init in
  let c2 := call 0 ("", "") 2 c1.1 in
  keys1 = [""; ""] /\ keys2 = [""; ""] /\ bind_keys keys1 = Some ("", "")
  /\ cache_get c1.1 "" =
       Some {| addr := 0; key := ""; promise := 0; settled := false;
               value := None; expireAt := -1; extra := None |}
  /\ promises c1.1 !! c1.2 = Some Pending
  /\ isFresh 0 ("", "") c1.1 = false
  /\ c1.2 = 0%nat /\ c2.2 = 1%nat /\ c1.2 <> c2.2
  /\ invocations c2.1 = [1; 2].
Proof. repeat split; try reflexivity. discriminate. Qed.

Lemma calls_share_promise_while_fresh_witness :
  cache_get (demo_loaded false (-1)) "g" =
    Some {| addr := 1; key := "a"; promise := 0; settled := true;
            value := Some 7; expireAt := -1; extra := None |}
  /\ calls ("g", "a") [(6, 1); (7, 2); (1000000, 3)] (demo_loaded false (-1))
     = (demo_loaded false (-1), [0; 0; 0]%nat).
Proof.
  split; [reflexivity|].
  refine (proj1 (calls_share_promise_while_fresh "g" "a"
                   (demo_loaded false (-1)) _ eq_refl)
            [(6, 1); (7, 2); (1000000, 3)] _).
  repeat constructor.
Defined.

(** C3 as stated fails when [mustRevalidate] is off: the entry was loaded
    under key [a], yet [get] for key [b] of the same group returns its
    value, whereas with no entry at all it returns nothing. *)
Lemma get_other_key_counterexample :
  cache_get (demo_loaded false (-1)) "g" =
    Some {| addr := 1; key := "a"; promise := 0; settled := true;
            value := Some 7; expireAt := -1; extra := None |}
  /\ "a" <> "b"
  /\ get (demo_options false (-1)) 6 ("g", "b") (demo_loaded false (-1)) = Some 7
  /\ get (demo_options false (-1)) 6 ("g", "b") demo_init = None.
Proof. repeat split; try reflexivity. discriminate. Qed.

Lemma get_returns_value_iff_witness :
  get (demo_options true (-1)) 6 ("g", "a") (demo_loaded true (-1)) = Some 7
  /\ get (demo_options true (-1)) 6 ("g", "b") (demo_loaded true (-1)) = None
  /\ isFresh 6 ("g", "b") (demo_loaded true (-1)) = false
  /\ isSettled ("g", "b") (demo_loaded true (-1)) = false.
Proof.
  pose proof (get_returns_value_iff (demo_options true (-1)) "g" "a" 6
                (demo_loaded true (-1))) as (Ha & _).
  pose proof (get_returns_value_iff (demo_options true (-1)) "g" "b" 6
                (demo_loaded true (-1))) as (_ & _ & Hb).
  split; [exact (Ha _ eq_refl (or_intror eq_refl))|].
  assert (Hne : "a" <> "b") by discriminate.
  destruct (Hb _ eq_refl Hne) as (Hf & Hs & Hg & _).
  split; [exact (Hg eq_refl)|]. split; [exact Hf|exact Hs].
Defined.

(** C4 as stated fails for a negative [expireAt] other than [-1]: with
    [ttl = -5] the written-back entry has [expireAt = -5]; it is fresh,
    though its [expireAt] is neither [-1] nor later than the clock. *)
Lemma isFresh_negative_expiry_counterexample :
  isFresh 100 ("g", "a") (demo_loaded false (-5)) = true
  /\ ~ (exists d, cache_get (demo_loaded false (-5)) "g" = Some d
          /\ key d = "a" /\ settled d = true
          /\ (expireAt d = -1 \/ 100 < expireAt d)).
Proof.
  split; [reflexivity|].
  intros (d & Hd & _ & _ & He).
  assert (Hx : expireAt d = -5) by (by injection Hd as <-).
  lia.
Qed.

Lemma isFresh_characterisation_witness :
  let opts := demo_options false 1000 in
  let r := reload ("g", "a") 1 demo_init in
  let st3 := settle opts 5 r.2 (Fulfilled 7) r.1 in
  promises r.1 !! r.2 = Some Pending
  /\ 0 <= ttl opts
  /\ (isFresh 1004 ("g", "a") st3 = true <-> 1004 - 5 < ttl opts)
  /\ (isFresh 1005 ("g", "a") st3 = true <-> 1005 - 5 < ttl opts).
Proof.
  pose proof (isFresh_characterisation (Extra := unit) never_null (demo_options false 1000)
                [] "g" "a" 1 [] 5 7 eq_refl eq_refl
                ltac:(simpl; lia) ltac:(lia)) as (_ & H).
  split; [reflexivity|]. split; [simpl; lia|].
  split; apply H.
Defined.

Lemma rejection_is_recorded_as_stale_witness :
  let opts := demo_options false (-1) in
  let r := reload ("g", "a") 1 demo_init in
  let st3 := settle opts 5 r.2 Rejected r.1 in
  promises r.1 !! r.2 = Some Pending
  /\ isSettled ("g", "a") st3 = true
  /\ isFresh 5 ("g", "a") st3 = false
  /\ invocations (call 5 ("g", "a") 2 st3).1 = [1; 2]
  /\ promises st3 !! r.2 = Some (Settled Rejected).
Proof.
  pose proof (rejection_is_recorded_as_stale (Extra := unit) never_null (demo_options false (-1))
                [] "g" "a" 1 [] 5 eq_refl eq_refl) as (_ & Hs & Hn & _ & _ & Hr & _).
  split; [reflexivity|]. split; [exact Hs|].
  destruct (Hn 5 ltac:(lia)) as (Hf & Hc).
  split; [exact Hf|]. split; [exact (proj1 (proj2 (Hc 2)))|exact Hr].
Defined.

(** C7 as stated fails for a negative ttl other than [-1]: with
    [ttl = -5] the settled entry has [expireAt = -5], not [-1]. *)
Lemma fulfilment_negative_ttl_counterexample :
  ttl (demo_options false (-5)) < 0
  /\ cache_get (demo_loaded false (-5)) "g" =
       Some {| addr := 1; key := "a"; promise := 0; settled := true;
               value := Some 7; expireAt := -5; extra := None |}
  /\ -5 <> -1.
Proof. repeat split; try reflexivity. discriminate. Qed.

Lemma fulfilment_sets_expiry_witness :
  let r := reload ("g", "a") 1 demo_init in
  promises r.1 !! r.2 = Some Pending
  /\ (exists d,
        cache_get (settle (demo_options false 1000) 5 r.2 (Fulfilled 7) r.1) "g" = Some d
        /\ value d = Some 7 /\ expireAt d = 1005)
  /\ (exists d,
        cache_get (settle (demo_options false (-1)) 5 r.2 (Fulfilled 7) r.1) "g" = Some d
        /\ expireAt d = -1
        /\ isFresh 1000000 ("g", "a")
             (settle (demo_options false (-1)) 5 r.2 (Fulfilled 7) r.1) = true).
Proof.
  split; [reflexivity|]. split.
  - destruct (fulfilment_sets_expiry (Extra := unit) never_null (demo_options false 1000)
                [] "g" "a" 1 [] 5 7 eq_refl eq_refl)
      as (d & Hd & _ & _ & _ & Hv & He & _).
    exists d. split; [exact Hd|]. split; [exact Hv|].
    exact (He ltac:(simpl; lia)).
  - destruct (fulfilment_sets_expiry (Extra := unit) never_null (demo_options false (-1))
                [] "g" "a" 1 [] 5 7 eq_refl eq_refl)
      as (d & Hd & _ & _ & _ & _ & _ & He & _).
    exists d. split; [exact Hd|].
    destruct (He ltac:(simpl; lia)) as (He1 & He2).
    split; [exact He1|exact (He2 1000000)].
Defined.

(** C8 on the code: an entry is loaded under key [a]; [set] for key [b] of
    the same group then installs an entry that still carries key [a], so
    the value set for [b] counts as fresh and settled for [a] and as
    neither for [b]. *)
Theorem set_over_other_key_keeps_stored_key :
  let opts := demo_options true (-1) in
  let st' := set never_null opts 6 ("g", "b") (Some 2) None (demo_loaded true (-1)) in
  cache_get st' "g" =
    Some {| addr := 2; key := "a"; promise := 1; settled := true;
            value := Some 2; expireAt := -1; extra := None |}
  /\ promises st' !! 1%nat = Some (Settled (Fulfilled 2))
  /\ isSettled ("g", "b") st' = false
  /\ isFresh 6 ("g", "b") st' = false
  /\ get opts 6 ("g", "b") st' = None
  /\ isFresh 6 ("g", "a") st' = true
  /\ get opts 6 ("g", "a") st' = Some 2.
Proof. repeat split; reflexivity. Qed.

(** Where [set] does as intended: on a group without an entry the
    installed entry has the requested key and is read back. *)
Example set_on_empty_group :
  let opts := demo_options true 1000 in
  let st' := set never_null opts 6 ("g", "b") (Some 2) None demo_init in
  cache_get st' "g" =
    Some {| addr := 0; key := "b"; promise := 0; settled := true;
            value := Some 2; expireAt := 1006; extra := None |}
  /\ promises st' !! 0%nat = Some (Settled (Fulfilled 2))
  /\ invocations st' = []
  /\ get opts 7 ("g", "b") st' = Some 2
  /\ promises (set never_null opts 6 ("g", "b") None None demo_init) !! 0%nat
     = Some (Settled Rejected).
Proof. repeat split; reflexivity. Qed.

(** C9 as stated fails on an array of one element: the group is bound but
    the key is not, so no pair of strings results. *)
Lemma resolveKey_short_array_counterexample :
  let resolver' : Z -> ResolverResult Z := fun _ => RArray [KString "g"] in
  resolveKey (pretty : Z -> string) resolver' 1 = ["g"]
  /\ destructure (resolveKey (pretty : Z -> string) resolver' 1) = (Some "g", None)
  /\ bind_keys (resolveKey (pretty : Z -> string) resolver' 1) = None.
Proof. repeat split; reflexivity. Qed.

(** Numbers and [undefined] in a well-formed answer, and a longer array. *)
Example resolveKey_samples :
  resolveKey (pretty : Z -> string) (fun x : Z => RPrimitive (KNumber x)) 42 = ["42"; "42"]
  /\ resolveKey (pretty : Z -> string) (fun x : Z => RArray [KString "tab"; KUndefined]) 42 = ["tab"; ""]
  /\ bind_keys (resolveKey (pretty : Z -> string)
       (fun x : Z => RArray [KString "g"; KNumber x; KString "more"]) 42)
     = Some ("g", "42").
Proof. repeat split; reflexivity. Qed.

(** ** Instances of the further properties *)

(** Two groups: [g] loaded under key [a], then a reload of [h] in flight. *)
Example demo_two_groups :
  let st := (reload ("h", "x") 3 (demo_loaded false (-1))).1 in
  cache_get st "g" ≫= value = Some 7
  /\ cache_get st "h" ≫= (fun d => Some (settled d)) = Some false
  /\ handlers_on 1 (handlers st) ≫= (fun h => [h_group h]) = ["h"].
Proof. repeat split; reflexivity. Qed.

Lemma set_then_read_witness :
  let opts := demo_options true 1000 in
  let st' := set never_null opts 6 ("g", "a") (Some 2) None (demo_loaded true 1000) in
  isSettled ("g", "a") st' = true
  /\ get opts 1005 ("g", "a") st' = Some 2
  /\ (isFresh 1005 ("g", "a") st' = true <-> 1005 < 6 + 1000)
  /\ (isFresh 1006 ("g", "a") st' = true <-> 1006 < 6 + 1000)
  /\ invocations st' = [1].
Proof.
  assert (Hkey : forall d, cache_get (demo_loaded true 1000) "g" = Some d -> key d = "a").
  { intros d Hd. vm_compute in Hd. by injection Hd as <-. }
  destruct (set_then_read never_null (demo_options true 1000) "g" "a" (Some 2) None 6
              (demo_loaded true 1000) Hkey ltac:(lia))
    as (Hs & Hg & _ & Hf & Hi).
  split; [exact Hs|].
  split; [exact (Hg 1005 (or_intror eq_refl))|].
  split; [exact (Hf ltac:(simpl; lia) 1005)|].
  split; [exact (Hf ltac:(simpl; lia) 1006)|exact Hi].
Defined.

Lemma set_then_call_witness :
  let opts := demo_options false (-1) in
  let st' := set never_null opts 6 ("g", "b") None None demo_init in
  isFresh 7 ("g", "b") st' = true
  /\ call 7 ("g", "b") 1 st' = (st', 0%nat)
  /\ promises st' !! 0%nat = Some (Settled Rejected)
  /\ invocations (call 7 ("g", "b") 1 st').1 = [].
Proof.
  split; [reflexivity|].
  refine (set_then_call never_null (demo_options false (-1)) "g" "b" None None 6 7 1
            demo_init _ eq_refl).
  intros d Hd. discriminate Hd.
Defined.

Lemma fulfilled_value_is_read_witness :
  let opts := demo_options true 1000 in
  let r := reload ("g", "a") 1 demo_init in
  let st3 := settle opts 5 r.2 (Fulfilled 7) r.1 in
  promises r.1 !! r.2 = Some Pending
  /\ isSettled ("g", "a") st3 = true
  /\ get opts 1004 ("g", "a") st3 = Some 7
  /\ get opts 1005 ("g", "a") st3 = None.
Proof.
  destruct (fulfilled_value_is_read (Extra := unit) never_null (demo_options true 1000)
              [] "g" "a" 1 [] 5 7 eq_refl eq_refl) as (Hs & _ & Hg).
  split; [reflexivity|]. split; [exact Hs|].
  split; [exact (Hg eq_refl 1004)|exact (Hg eq_refl 1005)].
Defined.

Lemma rejection_drops_old_value_witness :
  let opts := demo_options false (-1) in
  let r := reload ("g", "a") 2 (demo_loaded false (-1)) in
  promises r.1 !! r.2 = Some Pending
  /\ get opts 8 ("g", "a") r.1 = Some 7
  /\ get opts 10 ("g", "a") (settle opts 9 r.2 Rejected r.1) = None.
Proof.
  split; [reflexivity|]. split; [reflexivity|].
  exact (rejection_drops_old_value (Extra := unit) never_null (demo_options false (-1))
           demo_load "g" "a" 2 [] 9 eq_refl eq_refl 10 "a").
Defined.

Lemma operations_touch_one_group_witness :
  let opts := demo_options false (-1) in
  event_group (EDelete ("h", "x") : Event Z Z) = Some "h"
  /\ cache_get (step never_null opts 8 (EDelete ("h", "x")) (demo_loaded false (-1))) "g"
     = cache_get (demo_loaded false (-1)) "g".
Proof.
  split; [reflexivity|].
  apply (operations_touch_one_group never_null (demo_options false (-1)) 8
           (EDelete ("h", "x")) "h" "g" (demo_loaded false (-1)) eq_refl).
  discriminate.
Defined.

Lemma settlement_touches_only_its_groups_witness :
  let opts := demo_options false (-1) in
  let st := (reload ("h", "x") 3 (demo_loaded false (-1))).1 in
  cache_get (settle opts 9 1 (Fulfilled 8) st) "g" = cache_get st "g"
  /\ cache_get (settle opts 9 1 (Fulfilled 8) st) "h" ≫= value = Some 8.
Proof.
  split; [|reflexivity].
  apply (settlement_touches_only_its_groups (demo_options false (-1)) 9 1 (Fulfilled 8) "g").
  intros h Hin. vm_compute in Hin. apply list_elem_of_singleton in Hin.
  subst h. discriminate.
Defined.

Lemma unsettled_entry_settles_witness :
  let opts := demo_options false (-1) in
  let st := run never_null opts [(0, ECall ("g", "a") 1)] demo_init in
  let d := {| addr := 0; key := "a"; promise := 0; settled := false;
              value := None; expireAt := -1; extra := None |} in
  cache_get st "g" = Some d
  /\ promises st !! 0%nat = Some Pending
  /\ isSettled ("g", "a") (settle opts 5 0 Rejected st) = true
  /\ isSettled ("g", "a") (settle opts 5 0 (Fulfilled 7) st) = true.
Proof.
  split; [reflexivity|].
  destruct (unsettled_entry_settles (Extra := unit) never_null (demo_options false (-1))
              [(0, ECall ("g", "a") 1)] "g" _ eq_refl eq_refl) as (_ & Hp & _ & H).
  split; [exact Hp|].
  split; [exact (proj1 (H 5 Rejected))|exact (proj1 (H 5 (Fulfilled 7)))].
Defined.


Lemma freshness_decays_witness :
  isFresh 1004 ("g", "a") (demo_loaded true 1000) = true
  /\ isSettled ("g", "a") (demo_loaded true 1000) = true
  /\ isFresh 6 ("g", "a") (demo_loaded true 1000) = true.
Proof.
  split; [reflexivity|].
  destruct (freshness_decays (demo_options true 1000) 1004 "g" "a"
              (demo_loaded true 1000) eq_refl) as (Hs & Hf & _).
  split; [exact Hs|exact (Hf 6 ltac:(lia))].
Defined.

Lemma set_wins_over_pending_load_witness :
  let opts := demo_options false (-1) in
  let r := reload ("g", "a") 1 demo_init in
  let st2 := set never_null opts 3 ("g", "b") (Some 2) None r.1 in
  cache (settle opts 5 r.2 (Fulfilled 7) st2) = cache st2
  /\ get opts 6 ("g", "a") (settle opts 5 r.2 (Fulfilled 7) st2) = Some 2.
Proof.
  destruct (set_wins_over_pending_load (Extra := unit) never_null
              (demo_options false (-1)) [] "g" "a" "b" 1 (Some 2) None 3 [] 5
              (Fulfilled 7)) as (_ & Hc & Hg).
  split; [exact Hc|]. exact (eq_trans (Hg eq_refl 6) eq_refl).
Defined.

(** The consumer below destructures by pattern matching; what it answers
    on an array of fewer than two elements plays no part. *)
Lemma default_options_load_once_witness :
  let opts : ICacheOptions Z Z := merge_options None in
  let c := call 0 ("", "") 1 demo_init in
  let st3 := settle opts 5 c.2 (Fulfilled 7) c.1 in
  let keyFn := fun (keys : list string) (a : Z) =>
    match keys with
    | cacheGroup :: cacheKey :: _ => call 1000000 (cacheGroup, cacheKey) a st3
    | _ => (st3, 0%nat)
    end in
  isFresh 0 ("", "") demo_init = false
  /\ promises c.1 !! c.2 = Some Pending
  /\ withArgs opts (pretty : Z -> string) keyFn 99 = (st3, 0%nat).
Proof.
  split; [reflexivity|]. split; [reflexivity|].
  destruct (default_options_load_once (Extra := unit) (Num := Z) never_null
              (pretty : Z -> string) [] 1 0 [] 5 7 eq_refl eq_refl eq_refl)
    as (_ & _ & H).
  apply (H 1000000 99). intros cacheGroup cacheKey rest a. reflexivity.
Defined.
